(** * catbox-memory-lru: the LRU memory cache connection of lib/index.js

    A shallow embedding of [lib/index.js] (the [Connection] prototype, the
    [Envelope] constructor and the two serializer helpers) together with the
    parts of the host it talks to: the timer queue ([setTimeout] /
    [clearTimeout]), the clock ([Date.now]), the buffer heap and the
    [lru-cache] container.

    Conventions.
    - Every public operation reports through [Hoek.nextTick(callback)]; the
      deferred call is modelled by the value the operation returns, next to
      the state it leaves behind.
    - JavaScript strings are modelled by [string]; a character stands for a
      code unit below 256.
    - Numbers are doubles, each finite one given by its exact value: an
      integer, or an odd numerator over a power of two.
    - Buffers are references into a heap, so that a buffer handed to the
      caller and a buffer kept in the cache can be the same object. *)

From Stdlib Require Import ZArith Lia Bool Ascii String List.
From Stdlib Require Import DecimalString DecimalPos DecimalN DecimalFacts Sorted.
From stdpp Require Import base tactics option list strings.

Local Open Scope Z_scope.

(** ** Values of the host language *)

Abbreviation Address := nat (only parsing).
Abbreviation TimerId := nat (only parsing).

(** A number is a double.  A finite double is an integer or, in lowest
    terms, an odd numerator over a power of two: [NFrac m k] is [m / 2 ^ k].
    The two zeros are one number here ([JSON.stringify] writes both as [0]). *)
Inductive JSNumber : Type :=
| NInt (z : Z)
| NFrac (m : Z) (k : positive)
| NNaN
| NPosInfinity
| NNegInfinity.

(** [VObject] lists the own enumerable properties in enumeration order.
    [VBuffer] is a reference to a heap cell.  [VCyclic] stands for an object
    graph that reaches itself, the input on which [JSON.stringify] throws. *)
#[warnings="-register-all"]
Inductive JSValue : Type :=
| VUndefined
| VNull
| VBool (b : bool)
| VNumber (n : JSNumber)
| VString (s : string)
| VArray (elems : list JSValue)
| VObject (props : list (string * JSValue))
| VBuffer (a : Address)
| VCyclic.

(** A call either returns or throws. *)
Inductive Completion (A : Type) : Type :=
| Normal (a : A)
| Throw.
Arguments Normal {A} a.
Arguments Throw {A}.

(** ** The buffer heap *)

Abbreviation Heap := (list (list Byte.byte)) (only parsing).

Module Buffer.

(** [buf.length]; a dangling reference does not occur in a run. *)
Definition length (h : Heap) (a : Address) : nat :=
  match h !! a with
  | Some bs => List.length bs
  | None => 0%nat
  end.

Definition contents (h : Heap) (a : Address) : list Byte.byte :=
  default [] (h !! a).

(** [new Buffer(n)]: a fresh cell of [n] bytes. *)
Definition new (h : Heap) (n : nat) : Address * Heap :=
  (List.length h, h ++ [replicate n Byte.x00]).

(** [source.copy(target)]: the first [min] bytes of [source] overwrite the
    start of [target]. *)
Definition copy (h : Heap) (source target : Address) : Heap :=
  match h !! source, h !! target with
  | Some s, Some t =>
      <[target := take (List.length t) s ++ drop (List.length s) t]> h
  | _, _ => h
  end.

(** [buf[i] = b]; an index outside the buffer is ignored. *)
Definition write (h : Heap) (a : Address) (i : nat) (b : Byte.byte) : Heap :=
  match h !! a with
  | Some bs => <[a := <[i := b]> bs]> h
  | None => h
  end.

(** [new Buffer(bytes)]: what a caller does to obtain a buffer value. *)
Definition from (h : Heap) (bs : list Byte.byte) : Address * Heap :=
  (List.length h, h ++ [bs]).

End Buffer.

(** ** The JSON engine

    [JSON.stringify] and [JSON.parse] belong to the host.  The connection is
    verified against any engine; [Module JSON] below gives a reference engine
    to run examples and to study the round trip.  [JSON_stringify] returns
    [Normal None] when the result is [undefined]. *)
Class JSONEngine : Type := {
  JSON_stringify : Heap -> JSValue -> Completion (option string);
  JSON_parse : string -> Completion JSValue
}.

(** ** Envelopes and the serializer *)

(** What [envelope.item] can hold: the JSON text, the private buffer, or
    [undefined] when [JSON.stringify] produced no text. *)
Inductive Item : Type :=
| IString (s : string)
| IBuffer (a : Address)
| IUndefined.

Record Envelope : Type := {
  item : Item;
  stored : Z;
  ttl : Z;
  timeoutId : option TimerId
}.

Record CacheKey : Type := {
  segment : string;
  id : string
}.

(** [Buffer.byteLength(value)] for a value that is not a buffer: the UTF-8
    length of the string, [undefined] being turned into the string
    [undefined] first.  The weigher never calls it on a buffer. *)
Definition utf8_units (c : ascii) : Z :=
  if (nat_of_ascii c <? 128)%nat then 1 else 2.

Fixpoint utf8_length (s : string) : Z :=
  match s with
  | EmptyString => 0
  | String c rest => utf8_units c + utf8_length rest
  end.

Definition Buffer_byteLength (value : Item) : Z :=
  match value with
  | IString s => utf8_length s
  | IUndefined => utf8_length "undefined"
  | IBuffer _ => 0
  end.

Record LRUOptions : Type := {
  lru_max : Z;
  lru_length : Heap -> Envelope -> Z
}.

Record Settings : Type := {
  allowMixedContent : bool;
  lru : LRUOptions
}.

(** [internals.defaults.lru.length] *)
Definition defaults_length (h : Heap) (envelope : Envelope) : Z :=
  let value := item envelope in
  match value with
  | IBuffer a => Z.of_nat (Buffer.length h a)
  | _ => Buffer_byteLength value
  end.

(** [internals.defaults] *)
Definition defaults : Settings := {|
  allowMixedContent := false;
  lru := {| lru_max := 100 * 1024 * 1024; lru_length := defaults_length |}
|}.

Section Serializer.
Context `{JSONEngine}.

(** [internals.serialize] *)
Definition serialize (h : Heap) (value : JSValue) (allowMixed : bool)
  : Completion (Item * Heap) :=
  match allowMixed, value with
  | true, VBuffer a =>
      let '(fresh, h1) := Buffer.new h (Buffer.length h a) in
      Normal (IBuffer fresh, Buffer.copy h1 a fresh)
  | _, _ =>
      match JSON_stringify h value with
      | Normal (Some text) => Normal (IString text, h)
      | Normal None => Normal (IUndefined, h)
      | Throw => Throw
      end
  end.

(** The result of [internals.deserialize]: [{value: v}] or [{error: true}]. *)
Inductive Deserialized : Type :=
| DValue (v : JSValue)
| DError.

(** [internals.deserialize]; [JSON.parse(undefined)] parses the string
    [undefined]. *)
Definition deserialize (it : Item) : Deserialized :=
  match it with
  | IBuffer a => DValue (VBuffer a)
  | IString text =>
      match JSON_parse text with
      | Normal v => DValue v
      | Throw => DError
      end
  | IUndefined =>
      match JSON_parse "undefined" with
      | Normal v => DValue v
      | Throw => DError
      end
  end.

End Serializer.

(** ** The bounded store *)

(** Modelled from the spec: the [lru-cache] package (the Bounded Store) is a
    dependency whose code is not among the sources.  The spec describes it as
    a capacity-bounded key/value store with a peek, set/get/delete by key and
    max-weight eviction by a caller-supplied weigher, which evicts
    least-recently-used entries so that the total resident weight never
    exceeds the capacity, and which does not notify the cache of an eviction.
    The model keeps the entries from least to most recently used, weighs a
    value once, when it is inserted, refuses a value heavier than the whole
    capacity, and treats a capacity that is not positive as unbounded. *)
Module LRU.

Record Entry : Type := {
  key : string;
  value : Envelope;
  weight : Z
}.

Record t : Type := {
  capacity : option Z;
  weigher : Heap -> Envelope -> Z;
  entries : list Entry
}.

(** [new LRUCache(options)] *)
Definition new (options : LRUOptions) : t := {|
  capacity := if lru_max options <=? 0 then None else Some (lru_max options);
  weigher := lru_length options;
  entries := []
|}.

Definition total (l : list Entry) : Z :=
  foldr (fun e acc => weight e + acc) 0 l.

Definition exceeds (cap : option Z) (w : Z) : bool :=
  match cap with
  | None => false
  | Some m => m <? w
  end.

Definition has_key (k : string) (e : Entry) : bool :=
  String.eqb (key e) k.

Definition without (k : string) (l : list Entry) : list Entry :=
  List.filter (fun e => negb (has_key k e)) l.

Definition with_entries (c : t) (l : list Entry) : t :=
  {| capacity := capacity c; weigher := weigher c; entries := l |}.

(** [cache.peek(key)]: the value, recency untouched. *)
Definition peek (c : t) (k : string) : option Envelope :=
  value <$> List.find (has_key k) (entries c).

(** [cache.get(key)]: the value, which becomes the most recently used. *)
Definition get (c : t) (k : string) : option Envelope * t :=
  match List.find (has_key k) (entries c) with
  | Some e => (Some (value e), with_entries c (without k (entries c) ++ [e]))
  | None => (None, c)
  end.

(** [cache.del(key)] *)
Definition del (c : t) (k : string) : t :=
  with_entries c (without k (entries c)).

(** Eviction under capacity pressure: entries leave from the least
    recently used end while the total weight exceeds the capacity. *)
Fixpoint trim (cap : option Z) (l : list Entry) : list Entry :=
  match l with
  | [] => []
  | e :: rest => if exceeds cap (total l) then trim cap rest else l
  end.

(** [cache.set(key, value)] *)
Definition set (h : Heap) (c : t) (k : string) (v : Envelope) : t :=
  let len := weigher c h v in
  if exceeds (capacity c) len then
    with_entries c (without k (entries c))
  else
    let e := {| key := k; value := v; weight := len |} in
    with_entries c (trim (capacity c) (without k (entries c) ++ [e])).

(** [cache.forEach(fn)] visits the values from the most recently used. *)
Definition values (c : t) : list Envelope :=
  value <$> rev (entries c).

(** [cache.reset()] *)
Definition reset (c : t) : t := with_entries c [].

Definition resident_weight (c : t) : Z := total (entries c).

End LRU.

(** ** The timer queue and the clock *)

(** An armed timer.  The only callback the connection ever schedules is
    [function () { self.drop(key, function () { }); }], so a timer is known by
    the key its closure holds. *)
Record Timer : Type := {
  timer_id : TimerId;
  timer_due : Z;
  timer_key : CacheKey
}.

Record Connection : Type := {
  settings : Settings;
  cache : option LRU.t
}.

(** The connection together with the host state it acts on. *)
Record State : Type := {
  this : Connection;
  now : Z;
  timers : list Timer;
  next_timer : TimerId;
  heap : Heap
}.

Definition TIMEOUT_MAX : Z := 2147483647.

(** The delay the host gives a timer: a delay outside [1, TIMEOUT_MAX] is
    replaced by 1. *)
Definition timer_delay (after : Z) : Z :=
  if (1 <=? after) && (after <=? TIMEOUT_MAX) then after else 1.

(** The queue is kept in firing order: by due time, and among equal due times
    in the order of arming. *)
Fixpoint enqueue (tm : Timer) (q : list Timer) : list Timer :=
  match q with
  | [] => [tm]
  | x :: rest =>
      if timer_due tm <? timer_due x then tm :: q else x :: enqueue tm rest
  end.

Definition with_this (s : State) (c : Connection) : State :=
  {| this := c; now := now s; timers := timers s;
     next_timer := next_timer s; heap := heap s |}.

Definition with_cache (s : State) (c : option LRU.t) : State :=
  with_this s {| settings := settings (this s); cache := c |}.

Definition with_timers (s : State) (q : list Timer) : State :=
  {| this := this s; now := now s; timers := q;
     next_timer := next_timer s; heap := heap s |}.

Definition with_heap (s : State) (h : Heap) : State :=
  {| this := this s; now := now s; timers := timers s;
     next_timer := next_timer s; heap := h |}.

(** [setTimeout(function () { self.drop(key, ...) }, after)] *)
Definition setTimeout (s : State) (k : CacheKey) (after : Z) : TimerId * State :=
  let tm := {| timer_id := next_timer s;
               timer_due := now s + timer_delay after;
               timer_key := k |} in
  (next_timer s,
   {| this := this s; now := now s; timers := enqueue tm (timers s);
      next_timer := S (next_timer s); heap := heap s |}).

(** [clearTimeout(id)] *)
Definition clearTimeout (s : State) (t : TimerId) : State :=
  with_timers s (List.filter (fun tm => negb (Nat.eqb (timer_id tm) t)) (timers s)).

Definition armed (s : State) (t : TimerId) : Prop :=
  exists tm, In tm (timers s) /\ timer_id tm = t.

(** ** The connection *)

(** The errors handed to callbacks, named after their messages:
    [Connection not started], [Invalid ttl (greater than 2147483647)], the
    exception caught around [new internals.Envelope], [Bad value content]. *)
Inductive Error : Type :=
| ConnectionNotStarted
| InvalidTtl
| EnvelopeThrew
| BadValueContent.

(** What the callback receives: [callback(err)] or [callback(null, result)]
    (for [set] and [drop], [callback()]). *)
Inductive Outcome (A : Type) : Type :=
| Failed (err : Error)
| Done (result : A).
Arguments Failed {A} err.
Arguments Done {A} result.

(** The object [get] builds on a hit: [{item, stored, ttl}]. *)
Record Found : Type := {
  found_item : JSValue;
  found_stored : Z;
  found_ttl : Z
}.

(** The options given to the constructor; an absent option is [None]. *)
Record Options : Type := {
  opt_allowMixedContent : option bool;
  opt_lru_max : option Z;
  opt_lru_length : option (Heap -> Envelope -> Z);
  opt_lru_maxAge : option Z
}.

(** [internals.Connection], called with an options object: the assertion
    on [lru.maxAge] throws, the settings are the defaults overridden by the
    options, the cache is null.  Called without options the constructor
    leaves [settings] null ([Hoek.applyToDefaults] returns null), and [start]
    then throws when it reads [this.settings.lru]: such a connection never
    gets started, and it is not among the states considered here. *)
Definition Connection_new (options : Options) : Completion Connection :=
  match opt_lru_maxAge options with
  | Some _ => Throw
  | None =>
      Normal {|
        settings := {|
          allowMixedContent :=
            default (allowMixedContent defaults) (opt_allowMixedContent options);
          lru := {|
            lru_max := default (lru_max (lru defaults)) (opt_lru_max options);
            lru_length := default (lru_length (lru defaults)) (opt_lru_length options)
          |}
        |};
        cache := None
      |}
  end.

(** A process that has just created the connection. *)
Definition boot (c : Connection) : State :=
  {| this := c; now := 0; timers := []; next_timer := 0%nat; heap := [] |}.

(** [Connection.prototype.generateKey] *)
Definition generateKey (k : CacheKey) : string :=
  (segment k ++ ":" ++ id k)%string.

Fixpoint includes (c : ascii) (s : string) : bool :=
  match s with
  | EmptyString => false
  | String x rest => Ascii.eqb x c || includes c rest
  end.

(** [Connection.prototype.validateSegmentName]: the message of the error
    returned, or [None] for null. *)
Definition validateSegmentName (name : string) : option string :=
  match name with
  | EmptyString => Some "Empty string"%string
  | _ =>
      if includes Ascii.zero name then Some "Includes null character"%string
      else None
  end.

(** [Connection.prototype.isReady] *)
Definition isReady (s : State) : bool :=
  match cache (this s) with
  | Some _ => true
  | None => false
  end.

(** [Connection.prototype.start] *)
Definition start (s : State) : State :=
  match cache (this s) with
  | None => with_cache s (Some (LRU.new (lru (settings (this s)))))
  | Some _ => s
  end.

(** [clearTimeout(value.timeoutId)], where the id may be null. *)
Definition clearTimeout_opt (s : State) (t : option TimerId) : State :=
  match t with
  | Some i => clearTimeout s i
  | None => s
  end.

(** [Connection.prototype.stop]: [this.cache.forEach] on a null cache
    throws a TypeError. *)
Definition stop (s : State) : Completion State :=
  match cache (this s) with
  | None => Throw
  | Some c =>
      let s1 := foldl (fun st v => clearTimeout_opt st (timeoutId v)) s (LRU.values c) in
      let _ := LRU.reset c in
      Normal (with_cache s1 None)
  end.

(** [Connection.prototype.drop] *)
Definition drop (s : State) (k : CacheKey) : Outcome unit * State :=
  match cache (this s) with
  | None => (Failed ConnectionNotStarted, s)
  | Some c =>
      let cacheKey := generateKey k in
      (Done tt, with_cache s (Some (LRU.del c cacheKey)))
  end.

Section Operations.
Context `{JSONEngine}.

(** [internals.Envelope] *)
Definition Envelope_new (s : State) (k : CacheKey) (v : JSValue) (t : Z)
    (st : Settings) : Completion (Envelope * State) :=
  match serialize (heap s) v (allowMixedContent st) with
  | Normal (it, h) =>
      Normal ({| item := it; stored := now s; ttl := t; timeoutId := None |},
              with_heap s h)
  | Throw => Throw
  end.

(** [Connection.prototype.get] *)
Definition get (s : State) (k : CacheKey) : Outcome (option Found) * State :=
  match cache (this s) with
  | None => (Failed ConnectionNotStarted, s)
  | Some c =>
      let cacheKey := generateKey k in
      let '(envelope, c1) := LRU.get c cacheKey in
      let s1 := with_cache s (Some c1) in
      match envelope with
      | None => (Done None, s1)
      | Some e =>
          match deserialize (item e) with
          | DError => (Failed BadValueContent, s1)
          | DValue v =>
              (Done (Some {| found_item := v;
                             found_stored := stored e;
                             found_ttl := ttl e |}), s1)
          end
      end
  end.

(** [Connection.prototype.set] *)
Definition set (s : State) (k : CacheKey) (v : JSValue) (t : Z)
  : Outcome unit * State :=
  match cache (this s) with
  | None => (Failed ConnectionNotStarted, s)
  | Some c =>
      if 2147483647 <? t then (Failed InvalidTtl, s)
      else
        match Envelope_new s k v t (settings (this s)) with
        | Throw => (Failed EnvelopeThrew, s)
        | Normal (envelope, s1) =>
            let cacheKey := generateKey k in
            let cachedItem := LRU.peek c cacheKey in
            let s2 :=
              match cachedItem with
              | Some ci => clearTimeout_opt s1 (timeoutId ci)
              | None => s1
              end in
            let '(tid, s3) := setTimeout s2 k t in
            let envelope' :=
              {| item := item envelope; stored := stored envelope;
                 ttl := ttl envelope; timeoutId := Some tid |} in
            (Done tt,
             with_cache s3 (Some (LRU.set (heap s3) c cacheKey envelope')))
        end
  end.

End Operations.

(** ** Time passing *)

(** A timer fires: [self.drop(key, function () { })], the outcome ignored. *)
Definition fire (s : State) (tm : Timer) : State :=
  snd (drop s (timer_key tm)).

Definition is_due (t : Z) (tm : Timer) : bool := timer_due tm <=? t.

(** The clock reaches [t]: the timers due by then leave the queue and fire,
    in queue order. *)
Definition advance (s : State) (t : Z) : State :=
  let due := List.filter (is_due t) (timers s) in
  let pending := List.filter (fun tm => negb (is_due t tm)) (timers s) in
  foldl fire
    {| this := this s; now := Z.max (now s) t; timers := pending;
       next_timer := next_timer s; heap := heap s |}
    due.

(** The envelope resident under a key, recency untouched. *)
Definition resident (s : State) (k : CacheKey) : option Envelope :=
  match cache (this s) with
  | Some c => LRU.peek c (generateKey k)
  | None => None
  end.

(** The timers left after [set] has cancelled the timer of the envelope
    it found under the key. *)
Definition after_cancel (s : State) (k : CacheKey) : list Timer :=
  match resident s k with
  | Some ci =>
      match timeoutId ci with
      | Some i => List.filter (fun tm => negb (Nat.eqb (timer_id tm) i)) (timers s)
      | None => timers s
      end
  | None => timers s
  end.

Definition new_timer (s : State) (k : CacheKey) (t : Z) : Timer :=
  {| timer_id := next_timer s; timer_due := now s + timer_delay t; timer_key := k |}.

(** ** A reference JSON engine

    [stringify] follows the serialization of the host for the values of
    [JSValue]: a finite number is written by [Number::toString], with the
    fewest digits that read back as the same double.  [parse] reads the JSON
    grammar: white space, the three literals, numbers with their fraction
    and exponent (the double nearest to the decimal value), strings with
    their escapes, arrays and objects.  Escapes above [00ff] denote strings
    that [JSValue] does not have; this parser refuses them. *)
Module JSON.

Definition dquote : ascii := ascii_of_nat 34.
Definition backslash : ascii := ascii_of_nat 92.

Definition hex_digit (n : nat) : ascii :=
  if (n <? 10)%nat then ascii_of_nat (48 + n) else ascii_of_nat (87 + n).

Definition escape (c : ascii) : string :=
  String backslash (String c EmptyString).

(** One code unit of a quoted string. *)
Definition quote_unit (c : ascii) : string :=
  let n := nat_of_ascii c in
  if Ascii.eqb c dquote then escape dquote
  else if Ascii.eqb c backslash then escape backslash
  else if (n =? 8)%nat then escape "b"
  else if (n =? 12)%nat then escape "f"
  else if (n =? 10)%nat then escape "n"
  else if (n =? 13)%nat then escape "r"
  else if (n =? 9)%nat then escape "t"
  else if (n <? 32)%nat then
    String backslash
      (String "u" (String "0" (String "0"
        (String (hex_digit (n / 16)) (String (hex_digit (n mod 16)) EmptyString)))))
  else String c EmptyString.

Fixpoint quote_units (s : string) : string :=
  match s with
  | EmptyString => EmptyString
  | String c rest => (quote_unit c ++ quote_units rest)%string
  end.

Definition quote (s : string) : string :=
  String dquote (quote_units s ++ String dquote EmptyString)%string.

Definition print_int (z : Z) : string :=
  match z with
  | Z0 => "0"%string
  | Zpos p => NilEmpty.string_of_uint (Pos.to_uint p)
  | Zneg p => String "-" (NilEmpty.string_of_uint (Pos.to_uint p))
  end.

(** *** Numbers *)

(** Up to [2 ^ 53] every integer is a double. *)
Definition MAX_SAFE : Z := 2 ^ 53.

(** Two numbers are the same double. *)
Definition same_number (a b : JSNumber) : bool :=
  match a, b with
  | NInt x, NInt y => x =? y
  | NFrac m k, NFrac m' k' => (m =? m') && (k =? k')%positive
  | NNaN, NNaN => true
  | NPosInfinity, NPosInfinity => true
  | NNegInfinity, NNegInfinity => true
  | _, _ => false
  end.

(** [m / 2 ^ k] in lowest terms. *)
Fixpoint halve (fuel : nat) (m k : Z) : JSNumber :=
  match fuel with
  | O => NInt m
  | S f =>
      if k <=? 0 then NInt m
      else if Z.even m then halve f (m / 2) (k - 1)
      else NFrac m (Z.to_pos k)
  end.

(** [m * 2 ^ e] *)
Definition dyadic (m e : Z) : JSNumber :=
  if 0 <=? e then NInt (m * 2 ^ e) else halve (Z.to_nat (- e)) m (- e).

(** [p / q] to the nearest integer, a tie going to the even one. *)
Definition nearest (p q : Z) : Z :=
  let f := p / q in
  match 2 * (p mod q) ?= q with
  | Lt => f
  | Gt => f + 1
  | Eq => if Z.even f then f else f + 1
  end.

(** The largest [e] with [2 ^ e <= p / q], for positive [p] and [q]. *)
Definition binade (p q : Z) : Z :=
  let e := Z.log2 p - Z.log2 q in
  if 0 <=? e then (if p <? q * 2 ^ e then e - 1 else e)
  else (if p * 2 ^ (- e) <? q then e - 1 else e).

(** The double nearest to [p / q], for [0 <= p] and [0 < q]: 53 significant
    bits, a last place no finer than [2 ^ -1074], a tie going to the even
    neighbour, and [Infinity] from [2 ^ 1024] on. *)
Definition to_double (p q : Z) : JSNumber :=
  if p =? 0 then NInt 0
  else
    let e := Z.max (binade p q - 52) (-1074) in
    let m := if 0 <=? e then nearest p (q * 2 ^ e) else nearest (p * 2 ^ (- e)) q in
    if (0 <=? e) && (2 ^ 1024 <=? m * 2 ^ e) then NPosInfinity else dyadic m e.

Definition negate (n : JSNumber) : JSNumber :=
  match n with
  | NInt z => NInt (- z)
  | NFrac m k => NFrac (- m) k
  | NNaN => NNaN
  | NPosInfinity => NNegInfinity
  | NNegInfinity => NPosInfinity
  end.

(** [(p / q) * 10 ^ d] *)
Definition scale (p q d : Z) : Z * Z :=
  if 0 <=? d then (p * 10 ^ d, q) else (p, q * 10 ^ (- d)).

(** The number of decimal digits of a positive integer. *)
Definition nb_digits (z : Z) : Z :=
  Z.of_nat (String.length (print_int z)).

(** The [n] with [10 ^ (n - 1) <= p / q < 10 ^ n]. *)
Definition decimal_exponent (p q : Z) : Z :=
  let n := nb_digits p - nb_digits q in
  let '(a, b) := scale p q (- n) in
  if b <=? a then n + 1 else n.

(** The digits of [Number::toString]: the least [k] for which an integer [s]
    of [k] digits has [s * 10 ^ (n - k)] read back as [x]; of two such
    integers the one nearer to [x].  The result is [(s, k)]. *)
Fixpoint shortest (fuel : nat) (x : JSNumber) (p q n k : Z) : Z * Z :=
  let '(a, b) := scale p q (k - n) in
  let lo := a / b in
  let hi := lo + 1 in
  let reads c := let '(a', b') := scale c 1 (n - k) in same_number (to_double a' b') x in
  let near := match 2 * (a mod b) ?= b with
              | Lt => lo
              | Gt => hi
              | Eq => if Z.even lo then lo else hi
              end in
  match fuel with
  | O => (near, k)
  | S f =>
      match reads lo, reads hi with
      | true, true => (near, k)
      | true, false => (lo, k)
      | false, true => (hi, k)
      | false, false => shortest f x p q n (k + 1)
      end
  end.

Fixpoint strip_zeros (fuel : nat) (s : Z) : Z :=
  match fuel with
  | O => s
  | S f => if (s mod 10 =? 0) && negb (s =? 0) then strip_zeros f (s / 10) else s
  end.

Fixpoint zeros (n : nat) : string :=
  match n with
  | O => EmptyString
  | S n' => String "0" (zeros n')
  end.

Fixpoint take_units (n : nat) (s : string) : string :=
  match n, s with
  | S n', String c rest => String c (take_units n' rest)
  | _, _ => EmptyString
  end.

Fixpoint drop_units (n : nat) (s : string) : string :=
  match n, s with
  | S n', String _ rest => drop_units n' rest
  | _, _ => s
  end.

(** The text of [s * 10 ^ (n - k)], [digits] being the [k] digits of [s]. *)
Definition layout (digits : string) (n : Z) : string :=
  let k := Z.of_nat (String.length digits) in
  if (k <=? n) && (n <=? 21) then (digits ++ zeros (Z.to_nat (n - k)))%string
  else if (0 <? n) && (n <=? 21) then
    (take_units (Z.to_nat n) digits ++ String "." (drop_units (Z.to_nat n) digits))%string
  else if (-6 <? n) && (n <=? 0) then
    (String "0" (String "." (zeros (Z.to_nat (- n)) ++ digits)))%string
  else
    let e := n - 1 in
    let mantissa :=
      if k =? 1 then digits
      else (take_units 1 digits ++ String "." (drop_units 1 digits))%string in
    (mantissa ++ String "e" (String (if (0 <=? e)%Z then "+"%char else "-"%char)
                                (print_int (Z.abs e))))%string.

(** [Number::toString] for the positive number [x], which is [p / q]. *)
Definition print_positive (x : JSNumber) (p q : Z) : string :=
  let n := decimal_exponent p q in
  let '(c, k) := shortest 17 x p q n 1 in
  layout (print_int (strip_zeros 20 c)) (n - k + nb_digits c).

(** [Number::toString] for a finite number. *)
Definition print_finite (x : JSNumber) (p q : Z) : string :=
  if p =? 0 then "0"%string
  else if p <? 0 then String "-" (print_positive (negate x) (- p) q)
  else print_positive x p q.

(** The text [JSON.stringify] gives a number: [Number::toString] for a finite
    one, [null] for the others.  An integer up to [2 ^ 53] has all its digits
    printed. *)
Definition print_number (x : JSNumber) : string :=
  match x with
  | NInt z => if Z.abs z <=? MAX_SAFE then print_int z else print_finite x z 1
  | NFrac m k => print_finite x m (2 ^ Zpos k)
  | _ => "null"%string
  end.

Fixpoint join (l : list string) : string :=
  match l with
  | [] => EmptyString
  | [x] => x
  | x :: rest => (x ++ String "," (join rest))%string
  end.

Definition member (k : string) (text : string) : string :=
  (quote k ++ String ":" text)%string.

(** A buffer serializes through its [toJSON]: an object with the type tag
    and the bytes. *)
Definition print_byte (b : Byte.byte) : string :=
  print_int (Z.of_N (Byte.to_N b)).

Definition buffer_text (bs : list Byte.byte) : string :=
  (String "{" (member "type" (quote "Buffer") ++ String ","
     (member "data" (String "[" (join (print_byte <$> bs) ++ "]")) ++ "}")))%string.

(** [JSON.stringify(value)]: [Normal None] is [undefined]. *)
Fixpoint stringify (h : Heap) (v : JSValue) : Completion (option string) :=
  match v with
  | VUndefined => Normal None
  | VNull => Normal (Some "null"%string)
  | VBool true => Normal (Some "true"%string)
  | VBool false => Normal (Some "false"%string)
  | VNumber x => Normal (Some (print_number x))
  | VString s => Normal (Some (quote s))
  | VArray elems =>
      let fix each (l : list JSValue) : Completion (list string) :=
        match l with
        | [] => Normal []
        | x :: rest =>
            match stringify h x, each rest with
            | Normal o, Normal texts => Normal (default "null"%string o :: texts)
            | _, _ => Throw
            end
        end in
      match each elems with
      | Normal texts => Normal (Some (String "[" (join texts ++ "]"))%string)
      | Throw => Throw
      end
  | VObject props =>
      let fix each (l : list (string * JSValue)) : Completion (list string) :=
        match l with
        | [] => Normal []
        | (k, x) :: rest =>
            match stringify h x, each rest with
            | Normal (Some text), Normal texts => Normal (member k text :: texts)
            | Normal None, Normal texts => Normal texts
            | _, _ => Throw
            end
        end in
      match each props with
      | Normal texts => Normal (Some (String "{" (join texts ++ "}"))%string)
      | Throw => Throw
      end
  | VBuffer a => Normal (Some (buffer_text (Buffer.contents h a)))
  | VCyclic => Throw
  end.

(** *** Reading *)

Definition is_ws (c : ascii) : bool :=
  let n := nat_of_ascii c in
  (n =? 32)%nat || (n =? 9)%nat || (n =? 10)%nat || (n =? 13)%nat.

Fixpoint skip_ws (s : string) : string :=
  match s with
  | String c rest => if is_ws c then skip_ws rest else s
  | EmptyString => s
  end.

Definition digit_of (c : ascii) : option (Decimal.uint -> Decimal.uint) :=
  let n := nat_of_ascii c in
  if (n =? 48)%nat then Some Decimal.D0
  else if (n =? 49)%nat then Some Decimal.D1
  else if (n =? 50)%nat then Some Decimal.D2
  else if (n =? 51)%nat then Some Decimal.D3
  else if (n =? 52)%nat then Some Decimal.D4
  else if (n =? 53)%nat then Some Decimal.D5
  else if (n =? 54)%nat then Some Decimal.D6
  else if (n =? 55)%nat then Some Decimal.D7
  else if (n =? 56)%nat then Some Decimal.D8
  else if (n =? 57)%nat then Some Decimal.D9
  else None.

Fixpoint read_digits (s : string) : Decimal.uint * string :=
  match s with
  | String c rest =>
      match digit_of c with
      | Some d => let '(u, r) := read_digits rest in (d u, r)
      | None => (Decimal.Nil, s)
      end
  | EmptyString => (Decimal.Nil, s)
  end.

(** The integer part of a number token: one digit at least, and no zero
    in front of another digit. *)
Definition well_formed_digits (u : Decimal.uint) : bool :=
  match u with
  | Decimal.Nil => false
  | Decimal.D0 Decimal.Nil => true
  | Decimal.D0 _ => false
  | _ => true
  end.

Definition continues_number (s : string) : bool :=
  match s with
  | String c _ => Ascii.eqb c "." || Ascii.eqb c "e" || Ascii.eqb c "E"
  | EmptyString => false
  end.

(** The integer a sequence of digits denotes. *)
Definition value_of (u : Decimal.uint) : Z := Z.of_N (N.of_uint u).

(** The fraction of a number token: a point and one digit at least. *)
Definition read_fraction (s : string) : option (Decimal.uint * string) :=
  match s with
  | String c rest =>
      if Ascii.eqb c "." then
        match read_digits rest with
        | (Decimal.Nil, _) => None
        | (u, r) => Some (u, r)
        end
      else Some (Decimal.Nil, s)
  | EmptyString => Some (Decimal.Nil, s)
  end.

(** The exponent of a number token: the letter, a sign or none, and one
    digit at least. *)
Definition read_exponent (s : string) : option (Z * string) :=
  match s with
  | String c rest =>
      if Ascii.eqb c "e" || Ascii.eqb c "E" then
        let '(negative, digits) :=
          match rest with
          | String sign rest1 =>
              if Ascii.eqb sign "-" then (true, rest1)
              else if Ascii.eqb sign "+" then (false, rest1)
              else (false, rest)
          | EmptyString => (false, rest)
          end in
        match read_digits digits with
        | (Decimal.Nil, _) => None
        | (u, r) => Some (if negative then - value_of u else value_of u, r)
        end
      else Some (0, s)
  | EmptyString => Some (0, s)
  end.

(** The number a token denotes: the double nearest to its decimal value. *)
Definition number_of (negative : bool) (whole fraction : Decimal.uint) (exponent : Z)
  : JSNumber :=
  let digits := Decimal.app whole fraction in
  let '(p, q) := scale (value_of digits) 1
                   (exponent - Z.of_nat (Decimal.nb_digits fraction)) in
  let x := to_double p q in
  if negative then negate x else x.

(** A number token: a sign or none, the integer part, a fraction or none,
    an exponent or none.  Digits alone that make an integer up to [2 ^ 53]
    denote that integer, which is a double. *)
Definition parse_number (s : string) : option (JSValue * string) :=
  let '(negative, digits) :=
    match s with
    | String c rest => if Ascii.eqb c "-" then (true, rest) else (false, s)
    | EmptyString => (false, s)
    end in
  let '(u, rest) := read_digits digits in
  if well_formed_digits u then
    if negb (continues_number rest) && (value_of u <=? MAX_SAFE) then
      Some (VNumber (NInt (if negative then - value_of u else value_of u)), rest)
    else
      match read_fraction rest with
      | Some (fraction, rest1) =>
          match read_exponent rest1 with
          | Some (exponent, rest2) =>
              Some (VNumber (number_of negative u fraction exponent), rest2)
          | None => None
          end
      | None => None
      end
  else None.

Definition hex_value (c : ascii) : option nat :=
  let n := nat_of_ascii c in
  if (48 <=? n)%nat && (n <=? 57)%nat then Some (n - 48)%nat
  else if (97 <=? n)%nat && (n <=? 102)%nat then Some (n - 87)%nat
  else if (65 <=? n)%nat && (n <=? 70)%nat then Some (n - 55)%nat
  else None.

(** The code unit an escape of one letter stands for. *)
Definition unescape (c : ascii) : option ascii :=
  if Ascii.eqb c dquote then Some dquote
  else if Ascii.eqb c backslash then Some backslash
  else if Ascii.eqb c "/" then Some "/"%char
  else if Ascii.eqb c "b" then Some (ascii_of_nat 8)
  else if Ascii.eqb c "f" then Some (ascii_of_nat 12)
  else if Ascii.eqb c "n" then Some (ascii_of_nat 10)
  else if Ascii.eqb c "r" then Some (ascii_of_nat 13)
  else if Ascii.eqb c "t" then Some (ascii_of_nat 9)
  else None.

(** The code units of a string token, after its opening quote, up to and
    including its closing quote. *)
Fixpoint read_units (s : string) : option (string * string) :=
  match s with
  | EmptyString => None
  | String c rest =>
      if Ascii.eqb c dquote then Some (EmptyString, rest)
      else if Ascii.eqb c backslash then
        match rest with
        | String e rest1 =>
            if Ascii.eqb e "u" then
              match rest1 with
              | String h1 (String h2 (String h3 (String h4 rest2))) =>
                  match hex_value h1, hex_value h2, hex_value h3, hex_value h4 with
                  | Some 0%nat, Some 0%nat, Some a, Some b =>
                      match read_units rest2 with
                      | Some (units, r) =>
                          Some (String (ascii_of_nat (16 * a + b)) units, r)
                      | None => None
                      end
                  | _, _, _, _ => None
                  end
              | _ => None
              end
            else
              match unescape e, read_units rest1 with
              | Some x, Some (units, r) => Some (String x units, r)
              | _, _ => None
              end
        | EmptyString => None
        end
      else if (nat_of_ascii c <? 32)%nat then None
      else
        match read_units rest with
        | Some (units, r) => Some (String c units, r)
        | None => None
        end
  end.

Fixpoint expect (word : string) (s : string) : option string :=
  match word, s with
  | EmptyString, _ => Some s
  | String w word', String c rest => if Ascii.eqb w c then expect word' rest else None
  | String _ _, EmptyString => None
  end.

(** A data property is created, or its value replaced where it stands. *)
Fixpoint define_property (k : string) (v : JSValue) (props : list (string * JSValue))
  : list (string * JSValue) :=
  match props with
  | [] => [(k, v)]
  | (k', v') :: rest =>
      if String.eqb k' k then (k', v) :: rest
      else (k', v') :: define_property k v rest
  end.

Section Descent.
Variable parse_value : string -> option (JSValue * string).

(** The elements of an array after the first bracket and white space,
    the array being known not to be empty. *)
Fixpoint parse_elements (n : nat) (s : string) (acc : list JSValue)
  : option (list JSValue * string) :=
  match n with
  | O => None
  | S n' =>
      match parse_value s with
      | Some (v, r) =>
          match skip_ws r with
          | String c r' =>
              if Ascii.eqb c "," then parse_elements n' (skip_ws r') (acc ++ [v])
              else if Ascii.eqb c "]" then Some (acc ++ [v], r')
              else None
          | EmptyString => None
          end
      | None => None
      end
  end.

(** The members of an object that is not empty. *)
Fixpoint parse_members (n : nat) (s : string) (acc : list (string * JSValue))
  : option (list (string * JSValue) * string) :=
  match n with
  | O => None
  | S n' =>
      match s with
      | String q s1 =>
          if Ascii.eqb q dquote then
            match read_units s1 with
            | Some (k, s2) =>
                match skip_ws s2 with
                | String colon s3 =>
                    if Ascii.eqb colon ":" then
                      match parse_value (skip_ws s3) with
                      | Some (v, r) =>
                          match skip_ws r with
                          | String c r' =>
                              if Ascii.eqb c "," then
                                parse_members n' (skip_ws r') (define_property k v acc)
                              else if Ascii.eqb c "}" then
                                Some (define_property k v acc, r')
                              else None
                          | EmptyString => None
                          end
                      | None => None
                      end
                    else None
                | EmptyString => None
                end
            | None => None
            end
          else None
      | EmptyString => None
      end
  end.
End Descent.

(** A value at the head of [s], which starts with no white space. *)
Fixpoint parse_value (fuel : nat) (s : string) : option (JSValue * string) :=
  match fuel with
  | O => None
  | S f =>
      match s with
      | EmptyString => None
      | String c rest =>
          if Ascii.eqb c "n" then
            match expect "ull" rest with Some r => Some (VNull, r) | None => None end
          else if Ascii.eqb c "t" then
            match expect "rue" rest with Some r => Some (VBool true, r) | None => None end
          else if Ascii.eqb c "f" then
            match expect "alse" rest with Some r => Some (VBool false, r) | None => None end
          else if Ascii.eqb c dquote then
            match read_units rest with
            | Some (units, r) => Some (VString units, r)
            | None => None
            end
          else if Ascii.eqb c "[" then
            match skip_ws rest with
            | String c1 r1 =>
                if Ascii.eqb c1 "]" then Some (VArray [], r1)
                else
                  match parse_elements (parse_value f) f (skip_ws rest) [] with
                  | Some (l, r) => Some (VArray l, r)
                  | None => None
                  end
            | EmptyString => None
            end
          else if Ascii.eqb c "{" then
            match skip_ws rest with
            | String c1 r1 =>
                if Ascii.eqb c1 "}" then Some (VObject [], r1)
                else
                  match parse_members (parse_value f) f (skip_ws rest) [] with
                  | Some (l, r) => Some (VObject l, r)
                  | None => None
                  end
            | EmptyString => None
            end
          else parse_number s
      end
  end.

(** [JSON.parse(text)]: one value, white space around it, nothing else. *)
Definition parse (text : string) : Completion JSValue :=
  match parse_value (S (String.length text)) (skip_ws text) with
  | Some (v, r) =>
      match skip_ws r with
      | EmptyString => Normal v
      | String _ _ => Throw
      end
  | None => Throw
  end.

End JSON.

#[export] Instance reference_engine : JSONEngine := {|
  JSON_stringify := JSON.stringify;
  JSON_parse := JSON.parse
|}.

(** ** Reachable states *)

(** What a caller can do between two operations of the connection: create
    a buffer, or write into a buffer it holds a reference to. *)
Inductive caller_step (s : State) : State -> Prop :=
| caller_allocates (bs : list Byte.byte) :
    caller_step s (with_heap s (snd (Buffer.from (heap s) bs)))
| caller_writes (a : Address) (i : nat) (b : Byte.byte) :
    caller_step s (with_heap s (Buffer.write (heap s) a i b)).

Section Reachable.
Context `{JSONEngine}.

(** The states a process goes through: it creates the connection, then
    calls its operations, lets time pass, and handles buffers. *)
Inductive reachable : State -> Prop :=
| reach_boot (o : Options) (c : Connection) :
    Connection_new o = Normal c -> reachable (boot c)
| reach_start s : reachable s -> reachable (start s)
| reach_stop s s' : reachable s -> stop s = Normal s' -> reachable s'
| reach_get s k : reachable s -> reachable (snd (get s k))
| reach_set s k v t : reachable s -> reachable (snd (set s k v t))
| reach_drop s k : reachable s -> reachable (snd (drop s k))
| reach_advance s u : reachable s -> reachable (advance s u)
| reach_caller s s' : reachable s -> caller_step s s' -> reachable s'.

End Reachable.

(** The entries of the store, none when the connection is not started. *)
Definition entries_of (s : State) : list LRU.Entry :=
  match cache (this s) with
  | Some c => LRU.entries c
  | None => []
  end.

(** Timer ids are handed out by a counter: the armed timers and the timers
    the resident envelopes carry were all handed out already. *)
Definition well_formed (s : State) : Prop :=
  Forall (fun tm => (timer_id tm < next_timer s)%nat) (timers s) /\
  Forall (fun e => exists i, timeoutId (LRU.value e) = Some i /\ (i < next_timer s)%nat)
         (entries_of s).

(** Two keys that [generateKey] maps to the same token name the same slot
    of the store. *)
Definition hits (k : CacheKey) (tm : Timer) : bool :=
  String.eqb (generateKey (timer_key tm)) (generateKey k).

(** The store of a started connection weighs with the configured weigher,
    holds entries of weight zero or more, and is within its capacity. *)
Definition within_capacity (s : State) : Prop :=
  match cache (this s) with
  | None => True
  | Some c =>
      LRU.weigher c = lru_length (lru (settings (this s))) /\
      LRU.exceeds (LRU.capacity c) 0 = false /\
      Forall (fun e => 0 <= LRU.weight e) (LRU.entries c) /\
      LRU.exceeds (LRU.capacity c) (LRU.resident_weight c) = false /\
      LRU.capacity c = LRU.capacity (LRU.new (lru (settings (this s))))
  end.

(** Every resident envelope has its timer armed: the timer whose id the
    envelope carries is in the queue, holds a key of the same token, and is
    due when the ttl of the envelope has elapsed since it was stored; and no
    two armed timers share an id. *)
Definition timers_live (s : State) : Prop :=
  (forall a b, In a (timers s) -> In b (timers s) ->
               timer_id a = timer_id b -> a = b) /\
  (forall x, In x (entries_of s) ->
     exists tm,
       In tm (timers s) /\
       timeoutId (LRU.value x) = Some (timer_id tm) /\
       generateKey (timer_key tm) = LRU.key x /\
       timer_due tm = stored (LRU.value x) + timer_delay (ttl (LRU.value x))).


(** The envelope a completed [set] hands to the store. *)
Definition envelope_set (s : State) (it : Item) (t : Z) : Envelope :=
  {| item := it; stored := now s; ttl := t; timeoutId := Some (next_timer s) |}.


(** ** Values with a JSON notation *)

(** Values on which the round trip through the reference engine is proved
    below: null, booleans, integers up to [2 ^ 53] either way, strings,
    arrays of such values, and objects of such values whose property names
    are distinct. *)
#[warnings="-register-all"]
Inductive plain : JSValue -> Prop :=
| plain_null : plain VNull
| plain_bool (b : bool) : plain (VBool b)
| plain_int (z : Z) : Z.abs z <= JSON.MAX_SAFE -> plain (VNumber (NInt z))
| plain_string (s : string) : plain (VString s)
| plain_array (elems : list JSValue) :
    Forall plain elems -> plain (VArray elems)
| plain_object (props : list (string * JSValue)) :
    NoDup (fst <$> props) ->
    Forall (fun p => plain (snd p)) props ->
    plain (VObject props).

(** The text [JSON.stringify] gives a plain value (for the other values,
    which the round trip does not cover, the text of null). *)
Fixpoint text_of (v : JSValue) : string :=
  match v with
  | VNull => "null"
  | VBool true => "true"
  | VBool false => "false"
  | VNumber (NInt z) => JSON.print_int z
  | VString s => JSON.quote s
  | VArray elems => String "[" (JSON.join (List.map text_of elems) ++ "]")
  | VObject props =>
      String "{"
        (JSON.join (List.map (fun p => JSON.member (fst p) (text_of (snd p))) props) ++ "}")
  | _ => "null"
  end%string.

(** The number of nodes of a value. *)
Fixpoint size (v : JSValue) : nat :=
  match v with
  | VArray elems => S (list_sum (List.map size elems))
  | VObject props => S (list_sum (List.map (fun p => size (snd p)) props))
  | _ => 1
  end.

(** What may follow a value in a text: nothing, or the comma or the closing
    bracket of the array or object around it. *)
Definition delimited (rest : string) : Prop :=
  match rest with
  | EmptyString => True
  | String c _ => c = ","%char \/ c = "]"%char \/ c = "}"%char
  end.

(** A number token, recognised by its first character, is read by
    [parse_number]. *)
Definition starts_number (s : string) : Prop :=
  match s with
  | String c _ => c = "-"%char \/ JSON.digit_of c <> None
  | EmptyString => False
  end.

(** The first character of a text: not white space, and not a closing
    bracket. *)
Definition opens_value (s : string) : Prop :=
  match s with
  | String c _ => JSON.is_ws c = false /\ c <> "]"%char /\ c <> "}"%char
  | EmptyString => False
  end.

(** The text of one member of an object. *)
Definition member_text (p : string * JSValue) : string :=
  JSON.member (fst p) (text_of (snd p)).

(** ** Sample runs *)

Module Sample.

Definition options (mixed : bool) (max : Z) : Options := {|
  opt_allowMixedContent := Some mixed;
  opt_lru_max := Some max;
  opt_lru_length := None;
  opt_lru_maxAge := None
|}.

Definition connection (mixed : bool) (max : Z) : Connection := {|
  settings := {|
    allowMixedContent := mixed;
    lru := {| lru_max := max; lru_length := defaults_length |}
  |};
  cache := None
|}.

Definition key1 : CacheKey := {| segment := "s"; id := "1" |}.
Definition key2 : CacheKey := {| segment := "s"; id := "2" |}.

(** A connection of 1024 bytes, created and then started. *)
Definition fresh : State := boot (connection false 1024).
Definition started : State := start fresh.

(** A started connection into which an undecodable payload was put by hand
    under [key1]: the text of an object that is never closed. *)
Definition broken_envelope : Envelope :=
  {| item := IString "{"; stored := 0; ttl := 1000; timeoutId := None |}.

Definition corrupted : State :=
  with_cache started
    (Some {| LRU.capacity := Some 1024;
             LRU.weigher := defaults_length;
             LRU.entries := [{| LRU.key := generateKey key1;
                                LRU.value := broken_envelope;
                                LRU.weight := 1 |}] |}).

End Sample.

(** ** Runs that show where timers stay armed *)

Module Run.

Definition envelope_of (text : string) (t : Z) (i : TimerId) : Envelope :=
  {| item := IString (JSON.quote text); stored := 0; ttl := t; timeoutId := Some i |}.


(** [set(key1, hello, 1000)] on the sample connection. *)
Definition hello : State :=
  snd (set Sample.started Sample.key1 (VString "hello") 1000).

(** [set(key1, a, 1000)] on the sample connection. *)
Definition first_set : State :=
  snd (set Sample.started Sample.key1 (VString "a") 1000).

(** ... then [set(key1, b, 5000)]: a replacement. *)
Definition replaced : State :=
  snd (set first_set Sample.key1 (VString "b") 5000).

(** ... or else [drop(key1)], and only then [set(key1, b, 5000)]. *)
Definition dropped : State := snd (drop first_set Sample.key1).

Definition set_again : State :=
  snd (set dropped Sample.key1 (VString "b") 5000).

(** A connection of 12 bytes; each of the two first payloads weighs 8. *)
Definition small : State := start (boot (Sample.connection false 12)).

Definition filled : State :=
  snd (set small Sample.key1 (VString "aaaaaa") 1000).

Definition evicting : State :=
  snd (set filled Sample.key2 (VString "bbbbbb") 2000).

Definition refilled : State :=
  snd (set evicting Sample.key1 (VString "c") 5000).

(** A connection in mixed-content mode; the caller owns a buffer of two
    bytes, stores it, reads it back and writes into what it got. *)
Definition mixed : State :=
  let s := start (boot (Sample.connection true 1024)) in
  with_heap s (snd (Buffer.from (heap s) [Byte.x01; Byte.x02])).

Definition stored_buffer : State :=
  snd (set mixed Sample.key1 (VBuffer 0) 1000).

Definition caller_mutates_original : State :=
  with_heap stored_buffer (Buffer.write (heap stored_buffer) 0 0 Byte.x09).

(** The buffer that [get] hands to the caller, and the state after the
    caller has written 9 into its first byte. *)
Definition returned_buffer : nat :=
  match fst (get stored_buffer Sample.key1) with
  | Done (Some {| found_item := VBuffer a |}) => a
  | _ => 0%nat
  end.

Definition caller_mutates_result : State :=
  let s := snd (get stored_buffer Sample.key1) in
  with_heap s (Buffer.write (heap s) returned_buffer 0 Byte.x09).

End Run.

(** ** Further sample runs *)

Module More.

(** [set(key1, cyclic, 1000)] on a connection that holds [a] under [key1]:
    the envelope cannot be built. *)
Definition failed_set : Outcome unit * State :=
  set Run.first_set Sample.key1 VCyclic 1000.

(** The sample connection with [a] under [key1], stopped, and started
    again. *)
Definition stopped : State :=
  match stop Run.first_set with
  | Normal s => s
  | Throw => Run.first_set
  end.

Definition restarted : State := start stopped.

(** The connection of [Run.dropped], whose timer 0 is still armed, stopped. *)
Definition stopped_with_timer : State :=
  match stop Run.dropped with
  | Normal s => s
  | Throw => Run.dropped
  end.

(** A store of 12 bytes and a payload of 22. *)
Definition oversized : State :=
  snd (set Run.filled Sample.key1 (VString "aaaaaaaaaaaaaaaaaaaa") 1000).

(** Two keys side by side in the sample connection. *)
Definition two_keys : State :=
  snd (set Run.first_set Sample.key2 (VString "b") 2000).

(** After [set(key1, a, 1000)] and [drop(key1)]: [set(key1, b, 1000)], and
    then the replacement [set(key1, c, 5000)]. *)
Definition set_b : State :=
  snd (set Run.dropped Sample.key1 (VString "b") 1000).

Definition set_c : State :=
  snd (set set_b Sample.key1 (VString "c") 5000).

End More.


(** ** Facts about the bounded store *)

Section LRU_facts.
Implicit Types (l : list LRU.Entry) (k : string) (c : LRU.t).

Lemma find_app {A} (f : A -> bool) (l1 l2 : list A) :
  List.find f (l1 ++ l2) =
  match List.find f l1 with Some x => Some x | None => List.find f l2 end.
Proof.
  induction l1 as [|x l1 IH]; simpl; [reflexivity|].
  destruct (f x); [reflexivity | apply IH].
Qed.

Lemma find_without_eq k l : List.find (LRU.has_key k) (LRU.without k l) = None.
Proof.
  induction l as [|e l IH]; simpl; [reflexivity|].
  destruct (LRU.has_key k e) eqn:E; simpl; [apply IH|].
  rewrite E. apply IH.
Qed.

Lemma has_key_ne k k' e :
  k <> k' -> LRU.has_key k e = true -> LRU.has_key k' e = false.
Proof.
  unfold LRU.has_key. intros Hne Hk.
  apply String.eqb_eq in Hk. apply String.eqb_neq. congruence.
Qed.

Lemma find_without_ne k k' l :
  k <> k' ->
  List.find (LRU.has_key k') (LRU.without k l) = List.find (LRU.has_key k') l.
Proof.
  intros Hne. induction l as [|e l IH]; simpl; [reflexivity|].
  destruct (LRU.has_key k e) eqn:E; simpl.
  - rewrite (has_key_ne k k' e Hne E). apply IH.
  - destruct (LRU.has_key k' e); [reflexivity | apply IH].
Qed.

Lemma peek_del_eq c k : LRU.peek (LRU.del c k) k = None.
Proof. unfold LRU.peek, LRU.del. simpl. by rewrite find_without_eq. Qed.

Lemma peek_del_ne c k k' : k <> k' -> LRU.peek (LRU.del c k) k' = LRU.peek c k'.
Proof. intros. unfold LRU.peek, LRU.del. simpl. by rewrite find_without_ne. Qed.

(** Reading changes the recency of an entry and nothing else. *)
Lemma peek_get c k k' : LRU.peek (snd (LRU.get c k)) k' = LRU.peek c k'.
Proof.
  unfold LRU.get, LRU.peek.
  destruct (List.find (LRU.has_key k) (LRU.entries c)) as [e|] eqn:E; simpl; [|reflexivity].
  pose proof (List.find_some _ _ E) as [_ Hk].
  rewrite find_app.
  destruct (String.eqb_spec k k') as [<-|Hne].
  - rewrite find_without_eq, E. simpl. by rewrite Hk.
  - rewrite find_without_ne by done.
    destruct (List.find (LRU.has_key k') (LRU.entries c)); [reflexivity|].
    simpl. by rewrite (has_key_ne k k' e Hne Hk).
Qed.

Lemma total_app l1 l2 : LRU.total (l1 ++ l2) = LRU.total l1 + LRU.total l2.
Proof. unfold LRU.total. induction l1; simpl; lia. Qed.

(** Eviction stops as soon as the weight fits, and an entry that fits on
    its own is never evicted from the most recently used end. *)
Lemma trim_fits cap l :
  LRU.exceeds cap 0 = false ->
  LRU.exceeds cap (LRU.total (LRU.trim cap l)) = false.
Proof.
  intros H0. induction l as [|e l IH]; [exact H0|].
  cbn [LRU.trim]. destruct (LRU.exceeds cap (LRU.total (e :: l))) eqn:E; [exact IH | exact E].
Qed.

Lemma trim_suffix cap l : exists pre, l = pre ++ LRU.trim cap l.
Proof.
  induction l as [|e l [pre IH]]; [by exists []|].
  cbn [LRU.trim]. destruct (LRU.exceeds cap (LRU.total (e :: l))).
  - exists (e :: pre). simpl. by rewrite <- IH.
  - by exists [].
Qed.

Lemma trim_keeps_last cap l e :
  LRU.exceeds cap (LRU.weight e) = false ->
  exists kept, LRU.trim cap (l ++ [e]) = kept ++ [e] /\ exists pre, l = pre ++ kept.
Proof.
  intros Hfit. induction l as [|x l IH].
  - exists []. split; [|by exists []].
    simpl. replace (LRU.weight e + 0) with (LRU.weight e) by lia. by rewrite Hfit.
  - cbn [app LRU.trim].
    destruct (LRU.exceeds cap (LRU.total (x :: l ++ [e]))).
    + destruct IH as (kept & -> & pre & ->).
      exists kept. split; [done|]. by exists (x :: pre).
    + exists (x :: l). split; [done|]. by exists [].
Qed.

Lemma find_none_suffix k pre kept :
  List.find (LRU.has_key k) (pre ++ kept) = None ->
  List.find (LRU.has_key k) kept = None.
Proof.
  rewrite find_app. destruct (List.find (LRU.has_key k) pre); [discriminate | done].
Qed.

(** A value that fits is resident after [set], under its key. *)
Lemma peek_set_fits h c k v :
  LRU.exceeds (LRU.capacity c) (LRU.weigher c h v) = false ->
  LRU.peek (LRU.set h c k v) k = Some v.
Proof.
  intros Hfit. unfold LRU.set, LRU.peek. rewrite Hfit. simpl.
  set (e := {| LRU.key := k; LRU.value := v; LRU.weight := LRU.weigher c h v |}).
  destruct (trim_keeps_last (LRU.capacity c) (LRU.without k (LRU.entries c)) e Hfit)
    as (kept & -> & pre & Hpre).
  rewrite find_app.
  rewrite (find_none_suffix k pre kept) by (rewrite <- Hpre; apply find_without_eq).
  simpl. unfold LRU.has_key at 1. simpl. by rewrite String.eqb_refl.
Qed.

(** A value heavier than the capacity is not stored, and takes the
    previous value of its key with it. *)
Lemma peek_set_oversized h c k v :
  LRU.exceeds (LRU.capacity c) (LRU.weigher c h v) = true ->
  LRU.peek (LRU.set h c k v) k = None.
Proof.
  intros Hbig. unfold LRU.set. rewrite Hbig. apply peek_del_eq.
Qed.

(** Whatever is resident under the key after [set] is the value set. *)
Lemma peek_set_inv h c k v e :
  LRU.peek (LRU.set h c k v) k = Some e -> e = v.
Proof.
  destruct (LRU.exceeds (LRU.capacity c) (LRU.weigher c h v)) eqn:E.
  - rewrite peek_set_oversized by done. discriminate.
  - rewrite peek_set_fits by done. congruence.
Qed.

(** The entries after [set] are entries from before, or the new one. *)
Lemma set_entries h c k v e :
  In e (LRU.entries (LRU.set h c k v)) ->
  In e (LRU.entries c) \/ LRU.value e = v.
Proof.
  unfold LRU.set.
  destruct (LRU.exceeds (LRU.capacity c) (LRU.weigher c h v)); simpl.
  - unfold LRU.without. rewrite List.filter_In. tauto.
  - destruct (trim_suffix (LRU.capacity c)
      (LRU.without k (LRU.entries c) ++
         [{| LRU.key := k; LRU.value := v; LRU.weight := LRU.weigher c h v |}]))
      as [pre Hpre].
    intros Hin.
    assert (Hin' : In e (pre ++ LRU.trim (LRU.capacity c)
      (LRU.without k (LRU.entries c) ++
         [{| LRU.key := k; LRU.value := v; LRU.weight := LRU.weigher c h v |}])))
      by (apply in_or_app; by right).
    rewrite <- Hpre in Hin'. apply in_app_or in Hin' as [Hin'|[<-|[]]].
    + left. unfold LRU.without in Hin'. apply List.filter_In in Hin'. tauto.
    + by right.
Qed.

End LRU_facts.

(** ** Facts about the timer queue *)

Lemma In_enqueue (tm x : Timer) (q : list Timer) :
  In x (enqueue tm q) <-> x = tm \/ In x q.
Proof.
  induction q as [|y q IH]; simpl; [naive_solver|].
  destruct (timer_due tm <? timer_due y); simpl; [naive_solver|].
  rewrite IH. naive_solver.
Qed.

Lemma In_clearTimeout (s : State) (t : TimerId) (x : Timer) :
  In x (timers (clearTimeout s t)) <-> In x (timers s) /\ timer_id x <> t.
Proof.
  unfold clearTimeout. simpl. rewrite List.filter_In.
  rewrite negb_true_iff, Nat.eqb_neq. tauto.
Qed.

Lemma clearTimeout_disarms (s : State) (t : TimerId) : ~ armed (clearTimeout s t) t.
Proof. intros (tm & Hin & Hid). apply In_clearTimeout in Hin. tauto. Qed.

(** The queue stays in firing order. *)
Lemma enqueue_sorted (tm : Timer) (q : list Timer) :
  Sorted (fun a b => timer_due a <= timer_due b) q ->
  Sorted (fun a b => timer_due a <= timer_due b) (enqueue tm q).
Proof.
  induction 1 as [|y q Hs IH Hhd]; simpl.
  - repeat constructor.
  - destruct (Z.ltb_spec (timer_due tm) (timer_due y)).
    + constructor; [by constructor|]. constructor. lia.
    + constructor; [exact IH|].
      destruct q as [|z q]; simpl.
      * constructor. lia.
      * destruct (Z.ltb_spec (timer_due tm) (timer_due z)); constructor; [lia|].
        by inversion Hhd.
Qed.

(** ** Facts about the operations *)

Lemma resident_drop (s : State) (k k' : CacheKey) :
  resident (snd (drop s k)) k' =
  if String.eqb (generateKey k) (generateKey k') then None else resident s k'.
Proof.
  unfold drop, resident. destruct (cache (this s)) as [c|] eqn:E; simpl.
  - destruct (String.eqb_spec (generateKey k) (generateKey k')) as [->|Hne].
    + apply peek_del_eq.
    + by apply peek_del_ne.
  - rewrite E. by destruct (String.eqb _ _).
Qed.

(** [drop] touches nothing but the store: the timers stay as they are. *)
Lemma drop_frame (s : State) (k : CacheKey) :
  timers (snd (drop s k)) = timers s /\
  next_timer (snd (drop s k)) = next_timer s /\
  heap (snd (drop s k)) = heap s /\
  now (snd (drop s k)) = now s /\
  settings (this (snd (drop s k))) = settings (this s) /\
  isReady (snd (drop s k)) = isReady s.
Proof.
  unfold drop, isReady. destruct (cache (this s)) eqn:E; simpl; rewrite ?E; tauto.
Qed.

Lemma foldl_fire_frame (l : list Timer) (s : State) :
  timers (foldl fire s l) = timers s /\
  next_timer (foldl fire s l) = next_timer s /\
  heap (foldl fire s l) = heap s /\
  now (foldl fire s l) = now s /\
  settings (this (foldl fire s l)) = settings (this s) /\
  isReady (foldl fire s l) = isReady s.
Proof.
  revert s. induction l as [|tm l IH]; intros s; simpl; [tauto|].
  destruct (IH (fire s tm)) as (-> & -> & -> & -> & -> & ->).
  apply drop_frame.
Qed.

Lemma resident_foldl_fire (l : list Timer) (s : State) (k : CacheKey) :
  resident (foldl fire s l) k =
  if existsb (hits k) l then None else resident s k.
Proof.
  revert s. induction l as [|tm l IH]; intros s; simpl; [reflexivity|].
  rewrite IH. unfold fire. rewrite resident_drop. unfold hits at 2.
  destruct (String.eqb (generateKey (timer_key tm)) (generateKey k)); simpl.
  - by destruct (existsb (hits k) l).
  - reflexivity.
Qed.

(** After the clock has reached [u], a key is resident exactly when it was and
    no timer due by [u] was armed for its slot. *)
Lemma resident_advance (s : State) (u : Z) (k : CacheKey) :
  resident (advance s u) k =
  if existsb (fun tm => is_due u tm && hits k tm) (timers s) then None
  else resident s k.
Proof.
  unfold advance. rewrite resident_foldl_fire.
  replace (existsb (hits k) (List.filter (is_due u) (timers s)))
    with (existsb (fun tm => is_due u tm && hits k tm) (timers s)); [reflexivity|].
  induction (timers s) as [|tm q IH]; simpl; [reflexivity|].
  destruct (is_due u tm); simpl; by rewrite IH.
Qed.

Lemma timers_advance (s : State) (u : Z) :
  timers (advance s u) = List.filter (fun tm => negb (is_due u tm)) (timers s).
Proof. unfold advance. by destruct (foldl_fire_frame (List.filter (is_due u) (timers s))
  {| this := this s; now := Z.max (now s) u;
     timers := List.filter (fun tm => negb (is_due u tm)) (timers s);
     next_timer := next_timer s; heap := heap s |}) as (-> & _). Qed.

Section Operation_facts.
Context `{JSONEngine}.

(** What a [set] that completes has done. *)
Lemma set_done s k v t s' :
  set s k v t = (Done tt, s') ->
  exists c it,
    cache (this s) = Some c /\
    t <= 2147483647 /\
    serialize (heap s) v (allowMixedContent (settings (this s))) = Normal (it, heap s') /\
    timers s' = enqueue (new_timer s k t) (after_cancel s k) /\
    next_timer s' = S (next_timer s) /\
    now s' = now s /\
    settings (this s') = settings (this s) /\
    cache (this s') =
      Some (LRU.set (heap s') c (generateKey k)
              {| item := it; stored := now s; ttl := t;
                 timeoutId := Some (next_timer s) |}).
Proof.
  unfold set, after_cancel, resident.
  destruct (cache (this s)) as [c|] eqn:Ec; [|discriminate].
  destruct (Z.ltb_spec 2147483647 t); [discriminate|].
  unfold Envelope_new.
  destruct (serialize (heap s) v (allowMixedContent (settings (this s))))
    as [[it h]|] eqn:Es; [|discriminate].
  intros [= <-]. exists c, it.
  destruct (LRU.peek c (generateKey k)) as [ci|]; [destruct (timeoutId ci)|];
    simpl; repeat split; done.
Qed.

(** When it completes: the connection is started, the ttl is in range and
    the envelope could be built. *)
Lemma set_completes s k v t c :
  cache (this s) = Some c ->
  t <= 2147483647 ->
  serialize (heap s) v (allowMixedContent (settings (this s))) <> Throw ->
  fst (set s k v t) = Done tt.
Proof.
  intros Ec Ht Hs. unfold set, Envelope_new. rewrite Ec.
  destruct (Z.ltb_spec 2147483647 t); [lia|].
  destruct (serialize _ _ _) as [[it h]|]; [|done].
  by destruct (LRU.peek c (generateKey k)) as [ci|].
Qed.

End Operation_facts.

(** ** Timer ids come from the counter *)

Lemma entries_of_drop (s : State) (k : CacheKey) (e : LRU.Entry) :
  In e (entries_of (snd (drop s k))) -> In e (entries_of s).
Proof.
  unfold drop, entries_of. destruct (cache (this s)) as [c|] eqn:E; simpl.
  - unfold LRU.without. rewrite List.filter_In. tauto.
  - by rewrite E.
Qed.

Lemma entries_of_foldl_fire (l : list Timer) (s : State) (e : LRU.Entry) :
  In e (entries_of (foldl fire s l)) -> In e (entries_of s).
Proof.
  revert s. induction l as [|tm l IH]; intros s; simpl; [done|].
  intros Hin. apply IH in Hin. by apply entries_of_drop in Hin.
Qed.

Lemma foldl_clear_frame (l : list Envelope) (s : State) :
  next_timer (foldl (fun st v => clearTimeout_opt st (timeoutId v)) s l) = next_timer s /\
  this (foldl (fun st v => clearTimeout_opt st (timeoutId v)) s l) = this s /\
  heap (foldl (fun st v => clearTimeout_opt st (timeoutId v)) s l) = heap s /\
  now (foldl (fun st v => clearTimeout_opt st (timeoutId v)) s l) = now s /\
  forall tm,
    In tm (timers (foldl (fun st v => clearTimeout_opt st (timeoutId v)) s l)) <->
    In tm (timers s) /\ ~ In (Some (timer_id tm)) (timeoutId <$> l).
Proof.
  revert s. induction l as [|v l IH]; intros s; simpl; [naive_solver|].
  destruct (IH (clearTimeout_opt s (timeoutId v))) as (-> & -> & -> & -> & Ht).
  repeat (split; [by destruct (timeoutId v)|]).
  intros tm. rewrite Ht. destruct (timeoutId v) as [i|]; cbn [clearTimeout_opt In].
  - rewrite In_clearTimeout. split.
    + intros [[? ?] ?]. split; [done|]. intros [[= ->]|?]; done.
    + intros [? Hn]. split; [split; [done|]|].
      * intros <-. apply Hn. by left.
      * intros ?. apply Hn. by right.
  - split; intros [? Hn]; (split; [done|]).
    + intros [[=]|?]; done.
    + intros ?. apply Hn. by right.
Qed.

Lemma well_formed_boot (c : Connection) : cache c = None -> well_formed (boot c).
Proof. intros E. unfold well_formed, entries_of. simpl. rewrite E. by split. Qed.

Lemma Connection_new_cache (o : Options) (c : Connection) :
  Connection_new o = Normal c -> cache c = None.
Proof. unfold Connection_new. destruct (opt_lru_maxAge o); intros [= <-]; done. Qed.

Lemma well_formed_start (s : State) : well_formed s -> well_formed (start s).
Proof.
  unfold start, well_formed, entries_of.
  destruct (cache (this s)) eqn:E; simpl; rewrite ?E; [done|]. intros [? _]. by split.
Qed.

Lemma well_formed_stop (s s' : State) :
  well_formed s -> stop s = Normal s' -> well_formed s'.
Proof.
  unfold stop. destruct (cache (this s)) as [c|] eqn:E; [|discriminate].
  intros [Ht _] [= <-]. unfold well_formed, entries_of. simpl.
  destruct (foldl_clear_frame (LRU.values c) s) as (-> & _ & _ & _ & Hin).
  split; [|done]. rewrite List.Forall_forall in *. intros tm Htm.
  apply Hin in Htm as [Htm _]. by apply Ht.
Qed.

Lemma well_formed_drop (s : State) (k : CacheKey) :
  well_formed s -> well_formed (snd (drop s k)).
Proof.
  intros [Ht He]. unfold well_formed.
  destruct (drop_frame s k) as (-> & -> & _).
  split; [done|]. rewrite List.Forall_forall in *.
  intros e Hin. apply He. by apply entries_of_drop in Hin.
Qed.

Lemma well_formed_advance (s : State) (u : Z) : well_formed s -> well_formed (advance s u).
Proof.
  intros [Ht He]. unfold well_formed. rewrite timers_advance.
  unfold advance.
  destruct (foldl_fire_frame (List.filter (is_due u) (timers s))
    {| this := this s; now := Z.max (now s) u;
       timers := List.filter (fun tm => negb (is_due u tm)) (timers s);
       next_timer := next_timer s; heap := heap s |}) as (_ & -> & _).
  rewrite List.Forall_forall in Ht, He. split; apply List.Forall_forall.
  - intros tm Hin. apply List.filter_In in Hin as [Hin _]. by apply Ht.
  - intros e Hin. apply entries_of_foldl_fire in Hin. by apply He.
Qed.

Lemma well_formed_caller (s s' : State) :
  well_formed s -> caller_step s s' -> well_formed s'.
Proof. intros Hwf []; exact Hwf. Qed.

Section Well_formed.
Context `{JSONEngine}.

Lemma well_formed_get s k : well_formed s -> well_formed (snd (get s k)).
Proof.
  intros [Ht He]. unfold get.
  destruct (cache (this s)) as [c|] eqn:E; [|by split].
  assert (Hwf : well_formed (with_cache s (Some (snd (LRU.get c (generateKey k)))))).
  { split; [exact Ht|]. unfold entries_of in *. rewrite E in He. simpl.
    unfold LRU.get.
    destruct (List.find (LRU.has_key (generateKey k)) (LRU.entries c)) as [e|] eqn:Ef;
      simpl; [|done].
    rewrite List.Forall_forall in *. intros x Hin.
    apply in_app_or in Hin as [Hin|[<-|[]]].
    - unfold LRU.without in Hin. apply List.filter_In in Hin. apply He. tauto.
    - apply He. by apply List.find_some in Ef as [? _]. }
  destruct (LRU.get c (generateKey k)) as [[e|] c1]; simpl in *; [|done].
  by destruct (deserialize (item e)).
Qed.

Lemma well_formed_set s k v t : well_formed s -> well_formed (snd (set s k v t)).
Proof.
  intros [Ht He].
  destruct (set s k v t) as [[err|[]] s'] eqn:E; simpl.
  - assert (s' = s) as ->; [|by split].
    revert E. unfold set, Envelope_new.
    destruct (cache (this s)); [|congruence].
    destruct (2147483647 <? t); [congruence|].
    destruct (serialize _ _ _) as [[it h]|]; [|congruence].
    destruct (LRU.peek _ _); discriminate.
  - apply set_done in E as (c & it & Ec & _ & _ & Htm & Hn & _ & _ & Hc).
    unfold well_formed, entries_of in *. rewrite Htm, Hn, Hc. rewrite Ec in He.
    rewrite List.Forall_forall in Ht, He. split; apply List.Forall_forall.
    + intros tm Hin. apply In_enqueue in Hin as [->|Hin]; [simpl; lia|].
      enough (In tm (timers s)) by (specialize (Ht tm); naive_solver lia).
      revert Hin. unfold after_cancel.
      destruct (resident s k) as [ci|]; [destruct (timeoutId ci)|]; try done.
      rewrite List.filter_In. tauto.
    + intros e Hin. apply set_entries in Hin as [Hin| ->].
      * destruct (He e Hin) as (i & ? & ?). exists i. split; [done | lia].
      * simpl. eexists. split; [done | lia].
Qed.

(** Every state a process goes through is well formed. *)
Lemma reachable_well_formed s : reachable s -> well_formed s.
Proof.
  induction 1.
  - apply well_formed_boot. by eapply Connection_new_cache.
  - by apply well_formed_start.
  - by eapply well_formed_stop.
  - by apply well_formed_get.
  - by apply well_formed_set.
  - by apply well_formed_drop.
  - by apply well_formed_advance.
  - by eapply well_formed_caller.
Qed.

End Well_formed.

(** ** The guards of the operations *)

Lemma not_ready_before_start (o : Options) (c : Connection) :
  Connection_new o = Normal c -> isReady (boot c) = false.
Proof. intros E. unfold isReady. simpl. by rewrite (Connection_new_cache o c E). Qed.

Lemma not_ready_after_stop (s s' : State) : stop s = Normal s' -> isReady s' = false.
Proof. unfold stop. destruct (cache (this s)); [|discriminate]. by intros [= <-]. Qed.

Lemma not_ready_cache (s s' : State) : stop s = Normal s' -> cache (this s') = None.
Proof. unfold stop. destruct (cache (this s)); [|discriminate]. by intros [= <-]. Qed.

Lemma ready_after_start (s : State) : isReady (start s) = true.
Proof. unfold start, isReady. by destruct (cache (this s)) eqn:E; simpl; rewrite ?E. Qed.

(** C8: for every key, value and ttl, each of get, set and drop invoked
    while the connection is not started (before start, or after stop, see
    [not_ready_before_start] and [not_ready_after_stop]) completes with the
    error [Connection not started] and leaves the state as it was. *)
Theorem not_started_guard `{JSONEngine} (s : State) (k : CacheKey) (v : JSValue) (t : Z) :
  isReady s = false ->
  get s k = (Failed ConnectionNotStarted, s) /\
  set s k v t = (Failed ConnectionNotStarted, s) /\
  drop s k = (Failed ConnectionNotStarted, s).
Proof.
  unfold isReady, get, set, drop.
  destruct (cache (this s)); [discriminate|]. by intros _.
Qed.

Lemma not_started_guard_witness :
  isReady Sample.fresh = false /\
  get Sample.fresh Sample.key1 = (Failed ConnectionNotStarted, Sample.fresh) /\
  set Sample.fresh Sample.key1 (VString "hello") 1000
    = (Failed ConnectionNotStarted, Sample.fresh) /\
  drop Sample.fresh Sample.key1 = (Failed ConnectionNotStarted, Sample.fresh).
Proof.
  split; [reflexivity|].
  exact (not_started_guard Sample.fresh Sample.key1 (VString "hello") 1000 eq_refl).
Defined.

(** C10: calling stop while the connection is not started (never started,
    or already stopped) throws, from the call of [forEach] on the null cache;
    it neither completes nor hands back an error value.  stop returns exactly
    when the connection is started, and then leaves it not started. *)
Theorem stop_requires_started (s : State) :
  (stop s = Throw <-> isReady s = false) /\
  (isReady s = true -> exists s', stop s = Normal s' /\ isReady s' = false).
Proof.
  unfold stop, isReady. destruct (cache (this s)) as [c|]; simpl.
  - split; [split; discriminate|]. intros _. eexists. by split.
  - split; [done | discriminate].
Qed.

(** C6: on a started connection set fails with [Invalid ttl] exactly when
    the ttl is greater than 2147483647; it then changes nothing, so a key
    that was absent stays absent.  Any other ttl, zero and negative ones
    included, never yields this error, and a set whose envelope can be built
    then completes. *)
Theorem set_ttl_guard `{JSONEngine} (s : State) (k : CacheKey) (v : JSValue) (t : Z) :
  isReady s = true ->
  (fst (set s k v t) = Failed InvalidTtl <-> 2147483647 < t) /\
  (2147483647 < t -> snd (set s k v t) = s) /\
  (t <= 2147483647 ->
   serialize (heap s) v (allowMixedContent (settings (this s))) <> Throw ->
   fst (set s k v t) = Done tt).
Proof.
  unfold isReady. destruct (cache (this s)) as [c|] eqn:Ec; [intros _|discriminate].
  split; [|split].
  - unfold set, Envelope_new. rewrite Ec.
    destruct (Z.ltb_spec 2147483647 t); [done|].
    destruct (serialize _ _ _) as [[it h]|]; simpl.
    + destruct (LRU.peek c (generateKey k)); simpl; split; (discriminate || lia).
    + split; (discriminate || lia).
  - intros Ht. unfold set. rewrite Ec.
    by destruct (Z.ltb_spec 2147483647 t); [|lia].
  - intros Ht Hs. by eapply set_completes.
Qed.

Lemma set_ttl_guard_witness :
  isReady Sample.started = true /\
  (fst (set Sample.started Sample.key1 (VString "hello") 2147483648) = Failed InvalidTtl
   /\ snd (set Sample.started Sample.key1 (VString "hello") 2147483648) = Sample.started
   /\ resident (snd (set Sample.started Sample.key1 (VString "hello") 2147483648))
        Sample.key1 = None) /\
  fst (set Sample.started Sample.key1 (VString "hello") 2147483647) = Done tt.
Proof.
  pose proof (set_ttl_guard Sample.started Sample.key1 (VString "hello") 2147483648 eq_refl)
    as (Hover & Hsame & _).
  pose proof (set_ttl_guard Sample.started Sample.key1 (VString "hello") 2147483647 eq_refl)
    as (_ & _ & Hmax).
  split; [reflexivity|]. split; [split; [|split]|].
  - apply Hover. reflexivity.
  - apply Hsame. reflexivity.
  - rewrite Hsame; reflexivity.
  - apply Hmax; [discriminate | vm_compute; discriminate].
Defined.

(** C7: on a started connection, when the payload stored under a key cannot
    be deserialized, get hands back the error [Bad value content], neither a
    value nor a miss, and the envelope stays where it is, unchanged; the
    timers and the buffers are not touched either. *)
Theorem get_corrupted `{JSONEngine} (s : State) (k : CacheKey) (e : Envelope) :
  resident s k = Some e ->
  deserialize (item e) = DError ->
  fst (get s k) = Failed BadValueContent /\
  (forall k', resident (snd (get s k)) k' = resident s k') /\
  timers (snd (get s k)) = timers s /\
  heap (snd (get s k)) = heap s /\
  isReady (snd (get s k)) = true.
Proof.
  unfold resident, get, isReady. destruct (cache (this s)) as [c|] eqn:Ec; [|discriminate].
  intros Hpeek Hbad.
  assert (Hsame : forall k', LRU.peek (snd (LRU.get c (generateKey k))) (generateKey k')
                             = LRU.peek c (generateKey k')) by (intros; apply peek_get).
  assert (Hget : fst (LRU.get c (generateKey k)) = Some e).
  { revert Hpeek. unfold LRU.peek, LRU.get.
    by destruct (List.find _ _). }
  destruct (LRU.get c (generateKey k)) as [o c1]. simpl in Hget, Hsame. subst o.
  rewrite Hbad. simpl. repeat split; done.
Qed.

Lemma get_corrupted_witness :
  resident Sample.corrupted Sample.key1 = Some Sample.broken_envelope /\
  deserialize (item Sample.broken_envelope) = DError /\
  fst (get Sample.corrupted Sample.key1) = Failed BadValueContent /\
  resident (snd (get Sample.corrupted Sample.key1)) Sample.key1
    = Some Sample.broken_envelope.
Proof.
  pose proof (get_corrupted Sample.corrupted Sample.key1 Sample.broken_envelope
                eq_refl eq_refl) as (Herr & Hkeep & _).
  split; [reflexivity|]. split; [reflexivity|]. split; [exact Herr|].
  rewrite Hkeep. reflexivity.
Defined.

(** ** Key generation *)

Lemma includes_head (c x : ascii) (s : string) :
  includes c (String x s) = false -> x <> c /\ includes c s = false.
Proof.
  simpl. intros E. apply orb_false_iff in E as [E1 E2].
  split; [by apply Ascii.eqb_neq | done].
Qed.

(** The first separator of a token splits it, when the segment has none. *)
Lemma split_at_separator (s1 s2 i1 i2 : string) :
  includes ":" s1 = false -> includes ":" s2 = false ->
  (s1 ++ ":" ++ i1 = s2 ++ ":" ++ i2)%string ->
  s1 = s2 /\ i1 = i2.
Proof.
  revert s2. induction s1 as [|c s1 IH]; intros [|d s2] H1 H2; simpl; intros [= E].
  - done.
  - apply includes_head in H2 as [Hd _]. congruence.
  - apply includes_head in H1 as [Hc _]. congruence.
  - subst d. apply includes_head in H1 as [_ H1]. apply includes_head in H2 as [_ H2].
    destruct (IH s2 H1 H2) as [-> ->]; [|done].
    match goal with E' : _ = _ |- _ => exact E' end.
Qed.

(** C5, as the code has it: two distinct keys whose segments pass
    [validateSegmentName] are mapped to one token, because a segment may
    hold the separator. *)
Lemma generateKey_collision :
  validateSegmentName "a:b" = None /\
  validateSegmentName "a" = None /\
  {| segment := "a:b"; id := "c" |} <> {| segment := "a"; id := "b:c" |} /\
  generateKey {| segment := "a:b"; id := "c" |}
    = generateKey {| segment := "a"; id := "b:c" |}.
Proof. repeat split; try reflexivity. discriminate. Qed.

(** C5, amended: generateKey is the concatenation of the segment, a colon
    and the id, hence a function of the pair; and two distinct pairs whose
    segments hold no colon never get the same token. *)
Theorem generateKey_injective (k1 k2 : CacheKey) :
  includes ":" (segment k1) = false ->
  includes ":" (segment k2) = false ->
  generateKey k1 = (segment k1 ++ ":" ++ id k1)%string /\
  (k1 <> k2 -> generateKey k1 <> generateKey k2).
Proof.
  intros H1 H2. split; [reflexivity|].
  unfold generateKey. intros Hne E. apply Hne.
  destruct (split_at_separator _ _ _ _ H1 H2 E) as [Hs Hi].
  destruct k1, k2. simpl in *. congruence.
Qed.

Lemma generateKey_injective_witness :
  includes ":" (segment Sample.key1) = false /\
  includes ":" (segment Sample.key2) = false /\
  Sample.key1 <> Sample.key2 /\
  generateKey Sample.key1 = "s:1"%string /\
  generateKey Sample.key1 <> generateKey Sample.key2.
Proof.
  destruct (generateKey_injective Sample.key1 Sample.key2 eq_refl eq_refl) as [Hcat Hinj].
  assert (Hne : Sample.key1 <> Sample.key2) by discriminate.
  split; [reflexivity|]. split; [reflexivity|]. split; [exact Hne|].
  split; [exact Hcat | exact (Hinj Hne)].
Defined.

(** ** Replacing an envelope *)

Lemma resident_entry (s : State) (k : CacheKey) (e : Envelope) :
  resident s k = Some e ->
  exists x, In x (entries_of s) /\ LRU.value x = e.
Proof.
  unfold resident, entries_of, LRU.peek.
  destruct (cache (this s)) as [c|]; [|discriminate].
  destruct (List.find _ _) as [x|] eqn:E; [|discriminate].
  intros [= <-]. exists x. split; [|done]. by apply List.find_some in E as [? _].
Qed.

(** In a well-formed state a resident envelope carries a timer id, one that
    the counter has already handed out. *)
Lemma resident_timeoutId (s : State) (k : CacheKey) (e : Envelope) :
  well_formed s -> resident s k = Some e ->
  exists i, timeoutId e = Some i /\ (i < next_timer s)%nat.
Proof.
  intros [_ He] Hr. apply resident_entry in Hr as (x & Hin & <-).
  rewrite List.Forall_forall in He. by apply He.
Qed.

Section Replacement.
Context `{JSONEngine}.

Lemma set_replaces_timer_wf (s : State) (k : CacheKey) (v : JSValue) (t : Z)
    (e : Envelope) (s' : State) :
  well_formed s ->
  resident s k = Some e ->
  set s k v t = (Done tt, s') ->
  exists old,
    timeoutId e = Some old /\
    ~ armed s' old /\
    timers s' =
      enqueue (new_timer s k t)
        (List.filter (fun tm => negb (Nat.eqb (timer_id tm) old)) (timers s)) /\
    (forall e', resident s' k = Some e' ->
       timeoutId e' = Some (next_timer s) /\ ttl e' = t /\ stored e' = now s) /\
    (forall u e',
       resident s' k = Some e' ->
       u < now s + timer_delay t ->
       (forall tm, In tm (timers s) -> timer_id tm <> old -> hits k tm = true ->
                   u < timer_due tm) ->
       resident (advance s' u) k = Some e') /\
    (forall u, now s + timer_delay t <= u -> resident (advance s' u) k = None).
Proof.
  intros Hwf Hres Hset.
  destruct (resident_timeoutId s k e Hwf Hres) as (old & Hold & Hlt).
  apply set_done in Hset as (c & it & Ec & Ht & Hser & Htm & Hnext & Hnow & Hst & Hc).
  unfold after_cancel in Htm. rewrite Hres, Hold in Htm.
  exists old. split; [done|]. split; [|split; [done|split; [|split]]].
  - intros (tm & Hin & Hid). rewrite Htm in Hin.
    apply In_enqueue in Hin as [->|Hin].
    + simpl in Hid. lia.
    + apply List.filter_In in Hin as [_ Hne].
      apply negb_true_iff, Nat.eqb_neq in Hne. done.
  - intros e'. unfold resident. rewrite Hc. intros He'.
    apply peek_set_inv in He'. by subst e'.
  - intros u e' He' Hu Hothers. rewrite resident_advance.
    destruct (existsb _ (timers s')) eqn:Ex; [|done].
    apply existsb_exists in Ex as (tm & Hin & Hdue).
    apply andb_true_iff in Hdue as [Hdue Hhit].
    unfold is_due in Hdue. apply Z.leb_le in Hdue.
    rewrite Htm in Hin. apply In_enqueue in Hin as [->|Hin].
    + simpl in Hdue. lia.
    + apply List.filter_In in Hin as [Hin Hne].
      apply negb_true_iff, Nat.eqb_neq in Hne.
      specialize (Hothers tm Hin Hne Hhit). lia.
  - intros u Hu. rewrite resident_advance.
    replace (existsb _ (timers s')) with true; [done|].
    symmetry. apply existsb_exists. exists (new_timer s k t). split.
    + rewrite Htm. apply In_enqueue. by left.
    + apply andb_true_iff. split.
      * unfold is_due. simpl. by apply Z.leb_le.
      * unfold hits. simpl. apply String.eqb_refl.
Qed.

End Replacement.

(** X18: for every started connection and every key that holds an
    envelope, a set under that key that completes cancels the timer of the
    envelope it replaces and then arms the new one: the old timer is no
    longer armed, and the queue is the old queue without it, plus the new
    timer.  The new entry stays until the new ttl elapses, whatever the
    deadline of the cancelled timer was, as long as no other timer armed for
    the slot comes due; and once the new ttl has elapsed the entry is
    gone. *)
Theorem set_replaces_timer `{JSONEngine} (s : State) (k : CacheKey) (v : JSValue)
    (t : Z) (e : Envelope) (s' : State) :
  reachable s ->
  resident s k = Some e ->
  set s k v t = (Done tt, s') ->
  exists old,
    timeoutId e = Some old /\
    ~ armed s' old /\
    timers s' =
      enqueue (new_timer s k t)
        (List.filter (fun tm => negb (Nat.eqb (timer_id tm) old)) (timers s)) /\
    (forall e', resident s' k = Some e' ->
       timeoutId e' = Some (next_timer s) /\ ttl e' = t /\ stored e' = now s) /\
    (forall u e',
       resident s' k = Some e' ->
       u < now s + timer_delay t ->
       (forall tm, In tm (timers s) -> timer_id tm <> old -> hits k tm = true ->
                   u < timer_due tm) ->
       resident (advance s' u) k = Some e') /\
    (forall u, now s + timer_delay t <= u -> resident (advance s' u) k = None).
Proof.
  intros Hreach. apply set_replaces_timer_wf. by apply reachable_well_formed.
Qed.

Lemma reachable_started : reachable Sample.started.
Proof.
  apply reach_start.
  by apply (reach_boot (Sample.options false 1024)).
Qed.

Lemma set_replaces_timer_witness :
  reachable Run.first_set /\
  resident Run.first_set Sample.key1 = Some (Run.envelope_of "a" 1000 0) /\
  set Run.first_set Sample.key1 (VString "b") 5000 = (Done tt, Run.replaced) /\
  ~ armed Run.replaced 0 /\
  resident (advance Run.replaced 1000) Sample.key1 = Some (Run.envelope_of "b" 5000 1) /\
  resident (advance Run.replaced 4999) Sample.key1 = Some (Run.envelope_of "b" 5000 1) /\
  resident (advance Run.replaced 5000) Sample.key1 = None.
Proof.
  assert (Hreach : reachable Run.first_set) by (apply reach_set, reachable_started).
  assert (Hres : resident Run.first_set Sample.key1 = Some (Run.envelope_of "a" 1000 0))
    by reflexivity.
  assert (Hset : set Run.first_set Sample.key1 (VString "b") 5000 = (Done tt, Run.replaced))
    by reflexivity.
  destruct (set_replaces_timer Run.first_set Sample.key1 (VString "b") 5000
              (Run.envelope_of "a" 1000 0) Run.replaced Hreach Hres Hset)
    as (old & Hold & Hgone & _ & _ & Hstays & Hleaves).
  injection Hold as <-.
  assert (Hnew : resident Run.replaced Sample.key1 = Some (Run.envelope_of "b" 5000 1))
    by reflexivity.
  assert (Hnone : forall tm, In tm (timers Run.first_set) -> timer_id tm <> 0%nat ->
                             hits Sample.key1 tm = true -> 5000 < timer_due tm).
  { intros tm [<-|[]] Hid; by destruct Hid. }
  split; [exact Hreach|]. split; [exact Hres|]. split; [exact Hset|].
  split; [exact Hgone|]. split; [|split].
  - apply Hstays; [done | reflexivity |].
    intros tm Hin Hid Hhit. specialize (Hnone tm Hin Hid Hhit). lia.
  - apply Hstays; [done | reflexivity |].
    intros tm Hin Hid Hhit. specialize (Hnone tm Hin Hid Hhit). lia.
  - apply Hleaves. vm_compute. discriminate.
Defined.

Lemma reachable_set_b : reachable More.set_b.
Proof. apply reach_set, reach_drop, reach_set, reachable_started. Qed.

(** C3, as the code has it: on the sample connection, after
    [set(key1, a, 1000)] and [drop(key1)], the key holds the envelope of
    [set(key1, b, 1000)] with timer 1.  The replacement [set(key1, c, 5000)]
    completes, cancels timer 1 and arms timer 2, due at 5000, for the new
    envelope.  But timer 0, which [drop] left armed, is still in the queue:
    it fires when the original ttl of 1000 has elapsed and removes the new
    envelope, four seconds before its own ttl elapses. *)
Theorem replacement_removed_at_original_ttl :
  reachable More.set_b /\
  resident More.set_b Sample.key1 = Some (Run.envelope_of "b" 1000 1) /\
  set More.set_b Sample.key1 (VString "c") 5000 = (Done tt, More.set_c) /\
  ~ armed More.set_c 1 /\
  timers More.set_c =
    [ {| timer_id := 0; timer_due := 1000; timer_key := Sample.key1 |};
      {| timer_id := 2; timer_due := 5000; timer_key := Sample.key1 |} ] /\
  resident More.set_c Sample.key1 = Some (Run.envelope_of "c" 5000 2) /\
  resident (advance More.set_c 999) Sample.key1 = Some (Run.envelope_of "c" 5000 2) /\
  resident (advance More.set_c 1000) Sample.key1 = None /\
  fst (get (advance More.set_c 1000) Sample.key1) = Done None.
Proof.
  split; [exact reachable_set_b|].
  split; [reflexivity|]. split; [reflexivity|]. split.
  - intros (tm & [<-|[<-|[]]] & Hid); discriminate.
  - split; [reflexivity|]. split; [reflexivity|]. split; [|split].
    + rewrite resident_advance. reflexivity.
    + rewrite resident_advance. reflexivity.
    + vm_compute. reflexivity.
Qed.

(** [drop] never cancels a timer: whatever was armed stays armed. *)
Lemma drop_keeps_timers (s : State) (k : CacheKey) (i : TimerId) :
  armed s i -> armed (snd (drop s k)) i.
Proof. unfold armed. by destruct (drop_frame s k) as (-> & _). Qed.

(** C1, as the code has it: on the sample connection, after
    [set(key1, a, 1000)], [drop(key1)] completes and removes the envelope,
    and the timer the envelope carried (id 0) is still armed.  It fires at
    1000 and then removes the envelope that [set(key1, b, 5000)] stored
    after the drop, long before that envelope is due. *)
Theorem drop_leaves_timer_armed :
  resident Run.first_set Sample.key1 = Some (Run.envelope_of "a" 1000 0) /\
  drop Run.first_set Sample.key1 = (Done tt, Run.dropped) /\
  resident Run.dropped Sample.key1 = None /\
  timers Run.dropped = timers Run.first_set /\
  armed Run.dropped 0 /\
  resident Run.set_again Sample.key1 = Some (Run.envelope_of "b" 5000 1) /\
  resident (advance Run.set_again 1000) Sample.key1 = None /\
  fst (get (advance Run.set_again 1000) Sample.key1) = Done None.
Proof.
  assert (Harmed : armed Run.first_set 0).
  { exists {| timer_id := 0; timer_due := 1000; timer_key := Sample.key1 |}.
    split; [by left | reflexivity]. }
  split; [reflexivity|]. split; [reflexivity|]. split; [reflexivity|].
  split; [apply drop_frame|]. split; [by apply drop_keeps_timers|].
  split; [reflexivity|]. split.
  - rewrite resident_advance. reflexivity.
  - vm_compute. reflexivity.
Qed.

(** C2, as the code has it: in a store of 12 bytes that holds an envelope
    of 8 bytes under [key1], [set(key2, bbbbbb, 2000)] evicts that envelope
    (the resident weight is 8 afterwards), and the timer of the evicted
    envelope (id 0) is still armed.  It fires at 1000 and then removes the
    envelope that [set(key1, c, 5000)] stored after the eviction. *)
Theorem eviction_leaves_timer_armed :
  resident Run.filled Sample.key1 = Some (Run.envelope_of "aaaaaa" 1000 0) /\
  set Run.filled Sample.key2 (VString "bbbbbb") 2000 = (Done tt, Run.evicting) /\
  resident Run.evicting Sample.key1 = None /\
  resident Run.evicting Sample.key2 = Some (Run.envelope_of "bbbbbb" 2000 1) /\
  LRU.resident_weight <$> cache (this Run.evicting) = Some 8 /\
  armed Run.evicting 0 /\
  resident Run.refilled Sample.key1 = Some (Run.envelope_of "c" 5000 2) /\
  resident (advance Run.refilled 1000) Sample.key1 = None.
Proof.
  split; [reflexivity|]. split; [reflexivity|]. split; [reflexivity|].
  split; [reflexivity|]. split; [reflexivity|]. split; [|split].
  - exists {| timer_id := 0; timer_due := 1000; timer_key := Sample.key1 |}.
    split; [by left | reflexivity].
  - reflexivity.
  - rewrite resident_advance. reflexivity.
Qed.

(** C9, as the code has it: in mixed-content mode [set] stores a copy of the
    caller's buffer (cell 1, a copy of cell 0), and a later write into the
    original does not reach the copy; but [get] hands out the stored buffer
    itself (cell 1, the cell the envelope holds), so a write through the
    result of [get] changes the cached payload, and the next [get] hands out
    the changed bytes. *)
Theorem get_hands_out_stored_buffer :
  resident Run.stored_buffer Sample.key1
    = Some {| item := IBuffer 1; stored := 0; ttl := 1000; timeoutId := Some 0%nat |} /\
  Buffer.contents (heap Run.stored_buffer) 1 = [Byte.x01; Byte.x02] /\
  Buffer.contents (heap Run.caller_mutates_original) 1 = [Byte.x01; Byte.x02] /\
  fst (get Run.stored_buffer Sample.key1)
    = Done (Some {| found_item := VBuffer 1; found_stored := 0; found_ttl := 1000 |}) /\
  Run.returned_buffer = 1%nat /\
  Buffer.contents (heap Run.caller_mutates_result) 1 = [Byte.x09; Byte.x02] /\
  fst (get Run.caller_mutates_result Sample.key1)
    = Done (Some {| found_item := VBuffer 1; found_stored := 0; found_ttl := 1000 |}).
Proof. repeat split; reflexivity. Qed.

(** ** The round trip through the reference engine *)

Section JSON_facts.
Import JSON.
#[local] Arguments String.append !_ _ / : simpl nomatch.

Lemma append_assoc (a b c : string) : ((a ++ b) ++ c = a ++ (b ++ c))%string.
Proof. induction a as [|x a IH]; simpl; [done | by rewrite IH]. Qed.

Lemma append_empty_r (a : string) : (a ++ EmptyString)%string = a.
Proof. induction a as [|x a IH]; simpl; [done | by rewrite IH]. Qed.

Lemma length_append (a b : string) :
  String.length (a ++ b) = (String.length a + String.length b)%nat.
Proof. induction a as [|x a IH]; simpl; [done | by rewrite IH]. Qed.

(** *** Strings *)

Lemma read_units_quote_unit (c : ascii) (tail : string) :
  read_units (quote_unit c ++ tail) =
  match read_units tail with
  | Some (units, r) => Some (String c units, r)
  | None => None
  end.
Proof.
  destruct c as [[] [] [] [] [] [] [] []]; reflexivity.
Qed.

Lemma read_units_quote_units (s rest : string) :
  read_units (quote_units s ++ String dquote rest) = Some (s, rest).
Proof.
  induction s as [|c s IH].
  - reflexivity.
  - change (quote_units (String c s)) with (quote_unit c ++ quote_units s)%string.
    rewrite append_assoc, read_units_quote_unit. by rewrite IH.
Qed.

Lemma parse_quote (s rest : string) :
  (quote s ++ rest)%string = String dquote (quote_units s ++ String dquote rest).
Proof. unfold quote. simpl. by rewrite append_assoc. Qed.

(** *** Numbers *)

Lemma delimited_not_digit (rest : string) :
  delimited rest ->
  match rest with String c _ => digit_of c = None | EmptyString => True end.
Proof. destruct rest as [|c r]; [done|]. intros [->|[->| ->]]; reflexivity. Qed.

Lemma delimited_ends_number (rest : string) :
  delimited rest -> continues_number rest = false.
Proof. destruct rest as [|c r]; [done|]. intros [->|[->| ->]]; reflexivity. Qed.

Lemma delimited_skip_ws (rest : string) : delimited rest -> skip_ws rest = rest.
Proof. destruct rest as [|c r]; [done|]. intros [->|[->| ->]]; reflexivity. Qed.

Lemma read_digits_string_of_uint (u : Decimal.uint) (rest : string) :
  match rest with String c _ => digit_of c = None | EmptyString => True end ->
  read_digits (NilEmpty.string_of_uint u ++ rest) = (u, rest).
Proof.
  intros Hrest.
  induction u as [|u IH|u IH|u IH|u IH|u IH|u IH|u IH|u IH|u IH|u IH];
    [|simpl; by rewrite IH ..].
  destruct rest as [|c r]; [done|]. simpl. by rewrite Hrest.
Qed.

Lemma normal_well_formed (d : Decimal.uint) :
  Decimal.unorm d = d -> well_formed_digits d = true.
Proof.
  intros Hnorm. destruct d as [|d| | | | | | | | |]; try reflexivity.
  - discriminate Hnorm.
  - destruct d; try reflexivity; exfalso;
      rewrite unorm_D0 in Hnorm; unfold Decimal.unorm in Hnorm;
      (destruct (Decimal.nzhead _) eqn:Hz; try discriminate Hnorm;
       by apply nzhead_nonzero in Hz).
Qed.

Lemma to_uint_well_formed (p : positive) : well_formed_digits (Pos.to_uint p) = true.
Proof.
  apply normal_well_formed.
  pose proof (DecimalPos.Unsigned.to_of (Pos.to_uint p)) as Hnorm.
  rewrite DecimalPos.Unsigned.of_to in Hnorm. by symmetry.
Qed.

Lemma string_of_uint_digit_head (u : Decimal.uint) :
  u <> Decimal.Nil ->
  exists c s, NilEmpty.string_of_uint u = String c s /\ digit_of c <> None.
Proof.
  destruct u; [done|..]; intros _; simpl; eexists _, _; (split; [reflexivity | done]).
Qed.

Lemma digit_not_minus (c : ascii) : digit_of c <> None -> Ascii.eqb c "-" = false.
Proof.
  destruct (Ascii.eqb_spec c "-") as [->|]; [|done]. intros Hd. by destruct Hd.
Qed.

Lemma parse_number_unsigned (u : Decimal.uint) (rest : string) :
  u <> Decimal.Nil -> well_formed_digits u = true -> delimited rest ->
  value_of u <= MAX_SAFE ->
  parse_number (NilEmpty.string_of_uint u ++ rest)
    = Some (VNumber (NInt (value_of u)), rest).
Proof.
  intros Hnil Hwf Hrest Hsafe. apply Z.leb_le in Hsafe. unfold parse_number.
  destruct (string_of_uint_digit_head u Hnil) as (c & s & Hs & Hc).
  pose proof (read_digits_string_of_uint u rest (delimited_not_digit rest Hrest)) as Hread.
  rewrite Hs in *.
  change (String c s ++ rest)%string with (String c (s ++ rest)) in *.
  cbv iota beta. rewrite (digit_not_minus c Hc).
  rewrite Hread, Hwf, (delimited_ends_number rest Hrest), Hsafe. reflexivity.
Qed.

Lemma value_of_to_uint (p : positive) : value_of (Pos.to_uint p) = Zpos p.
Proof. unfold value_of, N.of_uint. by rewrite DecimalPos.Unsigned.of_to. Qed.

Lemma parse_number_negative (u : Decimal.uint) (rest : string) :
  well_formed_digits u = true -> delimited rest ->
  value_of u <= MAX_SAFE ->
  parse_number (String "-" (NilEmpty.string_of_uint u ++ rest))
    = Some (VNumber (NInt (- value_of u)), rest).
Proof.
  intros Hwf Hrest Hsafe. apply Z.leb_le in Hsafe. unfold parse_number.
  change (Ascii.eqb "-" "-") with true. cbv iota beta.
  rewrite (read_digits_string_of_uint u rest (delimited_not_digit rest Hrest)).
  rewrite Hwf, (delimited_ends_number rest Hrest), Hsafe. reflexivity.
Qed.

Lemma parse_number_print_int (z : Z) (rest : string) :
  Z.abs z <= MAX_SAFE ->
  delimited rest ->
  parse_number (print_int z ++ rest) = Some (VNumber (NInt z), rest).
Proof.
  intros Hsafe Hrest. destruct z as [|p|p]; unfold print_int.
  - apply (parse_number_unsigned (Decimal.D0 Decimal.Nil)); done.
  - rewrite parse_number_unsigned;
      [|apply DecimalPos.Unsigned.to_uint_nonnil | apply to_uint_well_formed | done
       |by rewrite value_of_to_uint].
    by rewrite value_of_to_uint.
  - change (String "-" (NilEmpty.string_of_uint (Pos.to_uint p)) ++ rest)%string
      with (String "-" (NilEmpty.string_of_uint (Pos.to_uint p) ++ rest)).
    rewrite parse_number_negative;
      [|apply to_uint_well_formed | done | by rewrite value_of_to_uint].
    by rewrite value_of_to_uint.
Qed.

Lemma parse_value_number (f : nat) (s : string) :
  starts_number s -> parse_value (S f) s = parse_number s.
Proof.
  destruct s as [|c r]; [done|]. simpl starts_number. intros [->|Hd]; [reflexivity|].
  destruct c as [[] [] [] [] [] [] [] []];
    try (exfalso; apply Hd; reflexivity); reflexivity.
Qed.

Lemma print_int_starts_number (z : Z) (rest : string) :
  starts_number (print_int z ++ rest).
Proof.
  destruct z as [|p|p]; unfold print_int; simpl.
  - by right.
  - destruct (string_of_uint_digit_head (Pos.to_uint p)
                (DecimalPos.Unsigned.to_uint_nonnil p)) as (c & s & -> & Hc).
    simpl. by right.
  - by left.
Qed.

Lemma opens_value_append (a b : string) : opens_value a -> opens_value (a ++ b).
Proof. destruct a; [done|]. by simpl. Qed.

Lemma digit_opens (c : ascii) (s : string) : digit_of c <> None -> opens_value (String c s).
Proof.
  intros Hd. simpl.
  destruct c as [[] [] [] [] [] [] [] []];
    try (exfalso; apply Hd; reflexivity); by repeat split.
Qed.

Lemma text_of_opens (v : JSValue) : opens_value (text_of v).
Proof.
  destruct v as [| |[]|[z|m k| | |]|s|l|ps|a|]; try by repeat split.
  destruct z as [|p|p]; simpl; try by repeat split.
  destruct (string_of_uint_digit_head (Pos.to_uint p)
              (DecimalPos.Unsigned.to_uint_nonnil p)) as (c & s & -> & Hc).
  by apply digit_opens.
Qed.

Lemma opens_skip_ws (s : string) : opens_value s -> skip_ws s = s.
Proof. destruct s as [|c r]; [done|]. simpl. by intros [-> _]. Qed.

(** *** Arrays and objects *)

Lemma define_property_fresh (k : string) (v : JSValue) (acc : list (string * JSValue)) :
  ~ In k (fst <$> acc) -> define_property k v acc = acc ++ [(k, v)].
Proof.
  induction acc as [|[k' v'] acc IH]; simpl; [done|]. intros Hn.
  destruct (String.eqb_spec k' k) as [->|].
  - exfalso. apply Hn. by left.
  - rewrite IH; [done|]. intros ?. apply Hn. by right.
Qed.

Lemma size_pos (v : JSValue) : (1 <= size v)%nat.
Proof. destruct v; simpl; lia. Qed.

Lemma join_cons_cons (x y : string) (l : list string) :
  join (x :: y :: l) = (x ++ String "," (join (y :: l)))%string.
Proof. reflexivity. Qed.

Lemma join_opens (x : string) (l : list string) :
  opens_value x -> opens_value (join (x :: l)).
Proof.
  destruct l as [|y l]; [done|]. rewrite join_cons_cons. apply opens_value_append.
Qed.

Lemma member_text_opens (p : string * JSValue) : opens_value (member_text p).
Proof. by repeat split. Qed.

Section Descent_facts.
Variable f : nat.
Hypothesis parse_value_f :
  forall v rest, plain v -> (size v <= f)%nat -> delimited rest ->
    parse_value f (text_of v ++ rest) = Some (v, rest).

Lemma parse_elements_texts (l : list JSValue) :
  forall (acc : list JSValue) (n : nat) (rest : string),
    l <> [] ->
    Forall plain l ->
    Forall (fun x => (size x <= f)%nat) l ->
    (List.length l <= n)%nat ->
    parse_elements (parse_value f) n
      (join (List.map text_of l) ++ String "]" rest) acc
    = Some (acc ++ l, rest).
Proof.
  induction l as [|x l IH]; intros acc n rest Hne Hplain Hsize Hlen; [done|].
  inversion_clear Hplain as [|? ? Hx Hl]. inversion_clear Hsize as [|? ? Sx Sl].
  destruct n as [|n]; [simpl in Hlen; lia|].
  destruct l as [|y l].
  - simpl. rewrite parse_value_f by (try done; simpl; tauto).
    reflexivity.
  - change (List.map text_of (x :: y :: l))
      with (text_of x :: text_of y :: List.map text_of l).
    rewrite join_cons_cons, append_assoc.
    change (String "," (join (text_of y :: List.map text_of l)) ++ String "]" rest)%string
      with (String "," (join (List.map text_of (y :: l)) ++ String "]" rest)).
    cbn [parse_elements]. rewrite parse_value_f by (try done; simpl; tauto).
    cbn [skip_ws]. change (is_ws ",") with false. cbv iota.
    change (Ascii.eqb "," ",") with true. cbv iota.
    rewrite opens_skip_ws
      by (apply opens_value_append, join_opens, text_of_opens).
    rewrite IH; [|done|done|done|simpl in *; lia].
    by rewrite <- app_assoc.
Qed.

Lemma parse_members_texts (ps : list (string * JSValue)) :
  forall (acc : list (string * JSValue)) (n : nat) (rest : string),
    ps <> [] ->
    Forall (fun p => plain (snd p)) ps ->
    Forall (fun p => (size (snd p) <= f)%nat) ps ->
    (List.length ps <= n)%nat ->
    NoDup (fst <$> acc ++ ps) ->
    parse_members (parse_value f) n
      (join (List.map member_text ps) ++ String "}" rest) acc
    = Some (acc ++ ps, rest).
Proof.
  induction ps as [|[k x] ps IH]; intros acc n rest Hne Hplain Hsize Hlen Hdup; [done|].
  inversion_clear Hplain as [|? ? Hx Hl]. inversion_clear Hsize as [|? ? Sx Sl].
  simpl in Hx, Sx.
  destruct n as [|n]; [simpl in Hlen; lia|].
  assert (Hfresh : ~ In k (fst <$> acc)).
  { rewrite fmap_app in Hdup. apply NoDup_app in Hdup as (_ & Hdis & _).
    intros Hin. apply (Hdis k); [by apply list_elem_of_In | by left]. }
  assert (Hstep : forall tail, delimited tail ->
            (member_text (k, x) ++ tail)%string
            = String dquote (quote_units k ++
                String dquote (String ":" (text_of x ++ tail)))).
  { intros tail _. unfold member_text, member. simpl fst. simpl snd.
    rewrite append_assoc, parse_quote. reflexivity. }
  destruct ps as [|q ps].
  - change (join (List.map member_text [(k, x)])) with (member_text (k, x)).
    rewrite Hstep by (simpl; tauto).
    cbn [parse_members]. change (Ascii.eqb dquote dquote) with true. cbv iota.
    rewrite read_units_quote_units. cbn [skip_ws].
    change (is_ws ":") with false. cbv iota.
    change (Ascii.eqb ":" ":") with true. cbv iota.
    rewrite opens_skip_ws by (apply opens_value_append, text_of_opens).
    rewrite parse_value_f by (try done; simpl; tauto).
    cbn [skip_ws]. change (is_ws "}") with false. cbv iota.
    change (Ascii.eqb "}" ",") with false. change (Ascii.eqb "}" "}") with true.
    cbv iota. by rewrite define_property_fresh.
  - change (List.map member_text ((k, x) :: q :: ps))
      with (member_text (k, x) :: member_text q :: List.map member_text ps).
    rewrite join_cons_cons, append_assoc.
    change (String "," (join (member_text q :: List.map member_text ps))
              ++ String "}" rest)%string
      with (String "," (join (List.map member_text (q :: ps)) ++ String "}" rest)).
    rewrite Hstep by (simpl; tauto).
    cbn [parse_members]. change (Ascii.eqb dquote dquote) with true. cbv iota.
    rewrite read_units_quote_units. cbn [skip_ws].
    change (is_ws ":") with false. cbv iota.
    change (Ascii.eqb ":" ":") with true. cbv iota.
    rewrite opens_skip_ws by (apply opens_value_append, text_of_opens).
    rewrite parse_value_f by (try done; simpl; tauto).
    cbn [skip_ws]. change (is_ws ",") with false. cbv iota.
    change (Ascii.eqb "," ",") with true. cbv iota.
    rewrite opens_skip_ws
      by (apply opens_value_append, join_opens, member_text_opens).
    rewrite define_property_fresh by done.
    rewrite IH; [|done|done|done|simpl in *; lia|].
    + by rewrite <- app_assoc.
    + by rewrite <- app_assoc.
Qed.

End Descent_facts.


Lemma size_elements (l : list JSValue) (f : nat) :
  (list_sum (List.map size l) <= f)%nat ->
  Forall (fun x => (size x <= f)%nat) l /\ (List.length l <= f)%nat.
Proof.
  revert f. induction l as [|x l IH]; intros f; simpl; [intros _; split; [done|lia]|].
  intros Hsum. pose proof (size_pos x).
  destruct (IH (f - size x)%nat) as [Hall Hlen]; [lia|]. split; [|lia].
  constructor; [lia|]. eapply Forall_impl; [exact Hall|]. simpl. intros. lia.
Qed.

Lemma size_members (ps : list (string * JSValue)) (f : nat) :
  (list_sum (List.map (fun p => size (snd p)) ps) <= f)%nat ->
  Forall (fun p => (size (snd p) <= f)%nat) ps /\ (List.length ps <= f)%nat.
Proof.
  revert f. induction ps as [|p ps IH]; intros f; simpl; [intros _; split; [done|lia]|].
  intros Hsum. pose proof (size_pos (snd p)).
  destruct (IH (f - size (snd p))%nat) as [Hall Hlen]; [lia|]. split; [|lia].
  constructor; [lia|]. eapply Forall_impl; [exact Hall|]. simpl. intros. lia.
Qed.

(** Reading the text of a plain value gives the value back, and leaves what
    follows the text. *)
Lemma parse_value_text_of (fuel : nat) :
  forall v rest, plain v -> (size v <= fuel)%nat -> delimited rest ->
    parse_value fuel (text_of v ++ rest) = Some (v, rest).
Proof.
  induction fuel as [|f IH]; intros v rest Hplain Hsize Hrest.
  { pose proof (size_pos v). lia. }
  destruct Hplain as [|[]|z Hz|s|l Hl|ps Hdup Hps].
  - reflexivity.
  - reflexivity.
  - reflexivity.
  - cbn [text_of]. rewrite parse_value_number by apply print_int_starts_number.
    by apply parse_number_print_int.
  - cbn [text_of]. rewrite parse_quote. cbn [parse_value].
    change (Ascii.eqb dquote "n") with false. change (Ascii.eqb dquote "t") with false.
    change (Ascii.eqb dquote "f") with false. change (Ascii.eqb dquote dquote) with true.
    cbv iota. by rewrite read_units_quote_units.
  - simpl in Hsize. destruct (size_elements l f) as [Hall Hlen]; [lia|].
    destruct l as [|x l]; [reflexivity|].
    cbn [text_of].
    change (String "[" (join (List.map text_of (x :: l)) ++ "]") ++ rest)%string
      with (String "[" ((join (List.map text_of (x :: l)) ++ "]") ++ rest)).
    rewrite append_assoc.
    change ("]" ++ rest)%string with (String "]" rest).
    assert (Hopen : opens_value (join (List.map text_of (x :: l)) ++ String "]" rest))
      by (apply opens_value_append, join_opens, text_of_opens).
    cbn [parse_value].
    change (Ascii.eqb "[" "n") with false. change (Ascii.eqb "[" "t") with false.
    change (Ascii.eqb "[" "f") with false. change (Ascii.eqb "[" dquote) with false.
    change (Ascii.eqb "[" "[") with true. cbv iota.
    rewrite (opens_skip_ws _ Hopen).
    rewrite (parse_elements_texts f IH (x :: l) [] f rest) by done.
    destruct (join (List.map text_of (x :: l)) ++ String "]" rest)%string as [|c r];
      [done|].
    destruct Hopen as (_ & Hc & _). apply Ascii.eqb_neq in Hc. by rewrite Hc.
  - simpl in Hsize. destruct (size_members ps f) as [Hall Hlen]; [lia|].
    destruct ps as [|p ps]; [reflexivity|].
    cbn [text_of].
    change (String "{" (join (List.map (fun p => member (fst p) (text_of (snd p)))
                                       (p :: ps)) ++ "}") ++ rest)%string
      with (String "{" ((join (List.map member_text (p :: ps)) ++ "}") ++ rest)).
    rewrite append_assoc.
    change ("}" ++ rest)%string with (String "}" rest).
    assert (Hopen : opens_value (join (List.map member_text (p :: ps)) ++ String "}" rest))
      by (apply opens_value_append, join_opens, member_text_opens).
    cbn [parse_value].
    change (Ascii.eqb "{" "n") with false. change (Ascii.eqb "{" "t") with false.
    change (Ascii.eqb "{" "f") with false. change (Ascii.eqb "{" dquote) with false.
    change (Ascii.eqb "{" "[") with false. change (Ascii.eqb "{" "{") with true.
    cbv iota.
    rewrite (opens_skip_ws _ Hopen).
    rewrite (parse_members_texts f IH (p :: ps) [] f rest) by done.
    destruct (join (List.map member_text (p :: ps)) ++ String "}" rest)%string as [|c r];
      [done|].
    destruct Hopen as (_ & _ & Hc). apply Ascii.eqb_neq in Hc. by rewrite Hc.
Qed.

Lemma length_join_sum (texts : list string) :
  (list_sum (List.map String.length texts) <= String.length (join texts))%nat.
Proof.
  induction texts as [|x [|y l] IH]; simpl in *; [lia|lia|].
  rewrite length_append. simpl. lia.
Qed.

Lemma length_member (k text : string) :
  (String.length text <= String.length (member k text))%nat.
Proof. unfold member. rewrite length_append. simpl. lia. Qed.

Lemma list_sum_cons (a : nat) (l : list nat) : list_sum (a :: l) = (a + list_sum l)%nat.
Proof. reflexivity. Qed.

(** A text has a character for every node of its value. *)
Lemma size_le_length (n : nat) :
  forall v, (size v <= n)%nat -> (size v <= String.length (text_of v))%nat.
Proof.
  induction n as [|n IH]; intros v Hn; [pose proof (size_pos v); lia|].
  destruct v as [| |[]|[z|m k| | |]|s|l|ps|a|]; try (simpl; lia).
  - simpl. destruct z as [|p|p]; simpl; try lia.
    destruct (string_of_uint_digit_head (Pos.to_uint p)
                (DecimalPos.Unsigned.to_uint_nonnil p)) as (c & s & -> & _).
    simpl. lia.
  - simpl in *. rewrite length_append. simpl.
    pose proof (length_join_sum (List.map text_of l)) as Hj.
    assert (Hl : (list_sum (List.map size l)
                  <= list_sum (List.map String.length (List.map text_of l)))%nat).
    { clear Hj. induction l as [|x l IHl]; simpl in *; [lia|].
      pose proof (IH x). lia. }
    lia.
  - simpl in *. rewrite length_append. simpl.
    pose proof (length_join_sum
      (List.map (fun p => member (fst p) (text_of (snd p))) ps)) as Hj.
    assert (Hl : (list_sum (List.map (fun p => size (snd p)) ps)
                  <= list_sum (List.map String.length
                       (List.map (fun p => member (fst p) (text_of (snd p))) ps)))%nat).
    { clear Hj. induction ps as [|p ps IHps]; cbn [List.map] in *; [simpl; lia|].
      rewrite !list_sum_cons in *.
      pose proof (IH (snd p)). pose proof (length_member (fst p) (text_of (snd p))). lia. }
    lia.
Qed.

(** The round trip of the engine: [JSON.stringify] gives a plain value its
    text, and [JSON.parse] reads the value back from it. *)
Lemma stringify_plain (h : list (list Byte.byte)) (n : nat) :
  forall v, (size v <= n)%nat -> plain v -> stringify h v = Normal (Some (text_of v)).
Proof.
  induction n as [|n IH]; intros v Hn Hplain; [pose proof (size_pos v); lia|].
  destruct Hplain as [|[]|z Hz|s|l Hl|ps Hdup Hps]; try reflexivity.
  - cbn [stringify text_of print_number]. apply Z.leb_le in Hz. by rewrite Hz.
  - simpl in Hn. destruct (size_elements l n) as [Hall _]; [lia|].
    cbn [stringify text_of].
    assert (Heach :
      (fix each (l0 : list JSValue) : Completion (list string) :=
         match l0 with
         | [] => Normal []
         | x :: rest =>
             match stringify h x, each rest with
             | Normal o, Normal texts => Normal (default "null"%string o :: texts)
             | _, _ => Throw
             end
         end) l = Normal (List.map text_of l)).
    { clear Hn. induction l as [|x l IHl]; [reflexivity|].
      inversion_clear Hl. inversion_clear Hall.
      rewrite IH by done. rewrite IHl by done. reflexivity. }
    by rewrite Heach.
  - simpl in Hn. destruct (size_members ps n) as [Hall _]; [lia|].
    cbn [stringify text_of].
    assert (Heach :
      (fix each (l0 : list (string * JSValue)) : Completion (list string) :=
         match l0 with
         | [] => Normal []
         | (k, x) :: rest =>
             match stringify h x, each rest with
             | Normal (Some text), Normal texts => Normal (member k text :: texts)
             | Normal None, Normal texts => Normal texts
             | _, _ => Throw
             end
         end) ps
      = Normal (List.map (fun p => member (fst p) (text_of (snd p))) ps)).
    { clear Hn Hdup. induction ps as [|[k x] ps IHps]; [reflexivity|].
      inversion_clear Hps. inversion_clear Hall. simpl in *.
      rewrite IH by done. rewrite IHps by done. reflexivity. }
    by rewrite Heach.
Qed.

Lemma parse_text_of (v : JSValue) : plain v -> parse (text_of v) = Normal v.
Proof.
  intros Hplain. unfold parse.
  rewrite (opens_skip_ws _ (text_of_opens v)).
  pose proof (parse_value_text_of (S (String.length (text_of v))) v EmptyString Hplain) as Hp.
  rewrite append_empty_r in Hp. rewrite Hp; [reflexivity| |done].
  pose proof (size_le_length (size v) v). lia.
Qed.

End JSON_facts.

(** The reference engine reads back what it writes for a plain value. *)
Lemma reference_round_trip (h : list (list Byte.byte)) (v : JSValue) :
  plain v ->
  JSON_stringify h v = Normal (Some (text_of v)) /\
  JSON_parse (text_of v) = Normal v.
Proof.
  intros Hplain. split.
  - exact (stringify_plain h (size v) v (le_n _) Hplain).
  - by apply parse_text_of.
Qed.




(** ** The capacity of the store *)

Lemma exceeds_le (cap : option Z) (a b : Z) :
  b <= a -> LRU.exceeds cap a = false -> LRU.exceeds cap b = false.
Proof.
  destruct cap as [m|]; simpl; [|done].
  intros Hle Ha. apply Z.ltb_ge in Ha. apply Z.ltb_ge. lia.
Qed.

Lemma without_weights (k : string) (l : list LRU.Entry) :
  Forall (fun e => 0 <= LRU.weight e) l ->
  Forall (fun e => 0 <= LRU.weight e) (LRU.without k l) /\
  LRU.total (LRU.without k l) <= LRU.total l /\
  forall e, In e l -> LRU.has_key k e = true ->
            LRU.total (LRU.without k l) + LRU.weight e <= LRU.total l.
Proof.
  induction 1 as [|x l Hx Hl (IH1 & IH2 & IH3)]; simpl.
  - split; [done|]. split; [done|]. intros e [].
  - destruct (LRU.has_key k x) eqn:E; simpl.
    + split; [done|]. split; [lia|]. intros e [<-|Hin] He; [lia|].
      specialize (IH3 e Hin He). lia.
    + split; [by constructor|]. split; [lia|]. intros e [<-|Hin] He; [congruence|].
      specialize (IH3 e Hin He). lia.
Qed.

Lemma trim_weights (cap : option Z) (l : list LRU.Entry) :
  Forall (fun e => 0 <= LRU.weight e) l ->
  Forall (fun e => 0 <= LRU.weight e) (LRU.trim cap l).
Proof.
  intros Hl. destruct (trim_suffix cap l) as [pre Hpre].
  rewrite Hpre in Hl. by apply Forall_app in Hl as [_ ?].
Qed.

Lemma within_capacity_del (c : LRU.t) (k : string) :
  Forall (fun e => 0 <= LRU.weight e) (LRU.entries c) ->
  LRU.exceeds (LRU.capacity c) (LRU.resident_weight c) = false ->
  Forall (fun e => 0 <= LRU.weight e) (LRU.entries (LRU.del c k)) /\
  LRU.exceeds (LRU.capacity (LRU.del c k)) (LRU.resident_weight (LRU.del c k)) = false.
Proof.
  intros Hw Hfit. destruct (without_weights k _ Hw) as (Hw' & Hle & _).
  split; [exact Hw'|]. by eapply exceeds_le.
Qed.

Lemma within_capacity_drop (s : State) (k : CacheKey) :
  within_capacity s -> within_capacity (snd (drop s k)).
Proof.
  unfold within_capacity, drop. destruct (cache (this s)) as [c|] eqn:E; simpl.
  - intros (Hw & H0 & Hpos & Hfit & Hcap).
    destruct (within_capacity_del c (generateKey k) Hpos Hfit). by repeat split.
  - by rewrite E.
Qed.

Lemma within_capacity_foldl_fire (l : list Timer) (s : State) :
  within_capacity s -> within_capacity (foldl fire s l).
Proof.
  revert s. induction l as [|tm l IH]; intros s Hs; [done|].
  simpl. apply IH. by apply within_capacity_drop.
Qed.

Lemma within_capacity_start (s : State) : within_capacity s -> within_capacity (start s).
Proof.
  unfold within_capacity, start. destruct (cache (this s)) as [c|] eqn:E; [by rewrite E|].
  intros _. simpl. unfold LRU.resident_weight. simpl.
  destruct (Z.leb_spec (lru_max (lru (settings (this s)))) 0); simpl;
    repeat split; try done; apply Z.ltb_ge; lia.
Qed.

Section Capacity.
Context `{JSONEngine}.

Lemma within_capacity_get (s : State) (k : CacheKey) :
  within_capacity s -> within_capacity (snd (get s k)).
Proof.
  unfold within_capacity, get. destruct (cache (this s)) as [c|] eqn:E;
    [|simpl; by rewrite E].
  intros (Hw & H0 & Hpos & Hfit & Hcap).
  assert (Hc : within_capacity (with_cache s (Some (snd (LRU.get c (generateKey k)))))).
  { unfold within_capacity, LRU.get. simpl.
    destruct (List.find (LRU.has_key (generateKey k)) (LRU.entries c)) as [e|] eqn:Ef;
      simpl; [|done].
    apply List.find_some in Ef as [Hin Hk].
    destruct (without_weights (generateKey k) _ Hpos) as (Hpos' & _ & Hle).
    repeat split; try done.
    - apply Forall_app. split; [done|]. constructor; [|done].
      rewrite List.Forall_forall in Hpos. by apply Hpos.
    - unfold LRU.resident_weight. simpl. rewrite total_app.
      eapply exceeds_le; [|exact Hfit]. specialize (Hle e Hin Hk).
      unfold LRU.resident_weight, LRU.total at 2. simpl. lia. }
  destruct (LRU.get c (generateKey k)) as [[e|] c1]; simpl in *; [|done].
  by destruct (deserialize (item e)).
Qed.

Lemma set_settings (s : State) (k : CacheKey) (v : JSValue) (t : Z) :
  settings (this (snd (set s k v t))) = settings (this s).
Proof.
  unfold set, Envelope_new. destruct (cache (this s)) as [c|]; [|done].
  destruct (2147483647 <? t); [done|].
  destruct (serialize _ _ _) as [[it h]|]; [|done].
  by destruct (LRU.peek c (generateKey k)) as [ci|]; [destruct (timeoutId ci)|].
Qed.

Lemma within_capacity_set (s : State) (k : CacheKey) (v : JSValue) (t : Z) :
  (forall h e, 0 <= lru_length (lru (settings (this s))) h e) ->
  within_capacity s -> within_capacity (snd (set s k v t)).
Proof.
  intros Hweigh Hs.
  destruct (set s k v t) as [[err|[]] s'] eqn:E; simpl.
  - assert (s' = s) as ->; [|done].
    revert E. unfold set, Envelope_new.
    destruct (cache (this s)); [|congruence].
    destruct (2147483647 <? t); [congruence|].
    destruct (serialize _ _ _) as [[it h]|]; [|congruence].
    destruct (LRU.peek _ _); discriminate.
  - apply set_done in E as (c & it & Ec & _ & _ & _ & _ & _ & Hst & Hc).
    unfold within_capacity in *. rewrite Hc, Hst. rewrite Ec in Hs.
    destruct Hs as (Hw & H0 & Hpos & Hfit & Hcap).
    destruct (without_weights (generateKey k) _ Hpos) as (Hpos' & Hle & _).
    unfold LRU.set.
    destruct (LRU.exceeds (LRU.capacity c) (LRU.weigher c (heap s') _)) eqn:Ebig; simpl.
    + repeat split; try done. by eapply exceeds_le.
    + repeat split; try done.
      * apply trim_weights. apply Forall_app. split; [done|].
        constructor; [|done]. simpl. rewrite Hw. apply Hweigh.
      * by apply trim_fits.
Qed.

End Capacity.

Lemma start_settings (s : State) : settings (this (start s)) = settings (this s).
Proof. unfold start. by destruct (cache (this s)). Qed.

Lemma advance_settings (s : State) (u : Z) :
  settings (this (advance s u)) = settings (this s).
Proof.
  unfold advance.
  by destruct (foldl_fire_frame (List.filter (is_due u) (timers s))
    {| this := this s; now := Z.max (now s) u;
       timers := List.filter (fun tm => negb (is_due u tm)) (timers s);
       next_timer := next_timer s; heap := heap s |}) as (_ & _ & _ & _ & -> & _).
Qed.

Lemma within_capacity_advance (s : State) (u : Z) :
  within_capacity s -> within_capacity (advance s u).
Proof. intros Hs. unfold advance. by apply within_capacity_foldl_fire. Qed.

Section Capacity_invariant.
Context `{JSONEngine}.

Lemma get_settings (s : State) (k : CacheKey) :
  settings (this (snd (get s k))) = settings (this s).
Proof.
  unfold get. destruct (cache (this s)) as [c|]; [|done].
  destruct (LRU.get c (generateKey k)) as [[e|] c1]; simpl; [|done].
  by destruct (deserialize (item e)).
Qed.

(** Whatever the process does, the store stays within its capacity. *)
Lemma reachable_within_capacity (s : State) :
  reachable s ->
  (forall h e, 0 <= lru_length (lru (settings (this s))) h e) ->
  within_capacity s.
Proof.
  induction 1 as [o c Hc|s Hs IH|s s' Hs IH Hstop|s k Hs IH|s k v t Hs IH|s k Hs IH
                 |s u Hs IH|s s' Hs IH Hstep]; intros Hweigh.
  - unfold within_capacity. simpl. by rewrite (Connection_new_cache o c Hc).
  - apply within_capacity_start, IH. by rewrite start_settings in Hweigh.
  - unfold within_capacity. by rewrite (not_ready_cache s s' Hstop).
  - apply within_capacity_get, IH. by rewrite get_settings in Hweigh.
  - rewrite set_settings in Hweigh. by apply within_capacity_set; [|apply IH].
  - apply within_capacity_drop, IH.
    by destruct (drop_frame s k) as (_ & _ & _ & _ & <- & _).
  - apply within_capacity_advance, IH. by rewrite advance_settings in Hweigh.
  - destruct Hstep; by apply IH.
Qed.

End Capacity_invariant.

Lemma defaults_length_nonneg (h : list (list Byte.byte)) (e : Envelope) :
  0 <= defaults_length h e.
Proof.
  assert (Hu : forall s, 0 <= utf8_length s).
  { induction s as [|c s IH]; simpl; [lia|]. unfold utf8_units.
    destruct (nat_of_ascii c <? 128)%nat; lia. }
  unfold defaults_length, Buffer_byteLength. destruct (item e); [apply Hu|lia|apply Hu].
Qed.

(** X1: on a connection configured with a positive capacity [lru.max] and
    a weigher that never gives a negative weight (the default one does not),
    whatever sequence of operations a process runs, the total weight
    resident in the store never exceeds [lru.max].  (A capacity that is not
    positive makes the store unbounded.) *)
Theorem resident_weight_bounded `{JSONEngine} (s : State) (c : LRU.t) :
  reachable s ->
  (forall h e, 0 <= lru_length (lru (settings (this s))) h e) ->
  0 < lru_max (lru (settings (this s))) ->
  cache (this s) = Some c ->
  LRU.resident_weight c <= lru_max (lru (settings (this s))).
Proof.
  intros Hreach Hweigh Hmax Ec.
  pose proof (reachable_within_capacity s Hreach Hweigh) as Hin.
  unfold within_capacity in Hin. rewrite Ec in Hin.
  destruct Hin as (_ & _ & _ & Hfit & Hcap).
  rewrite Hcap in Hfit. unfold LRU.new in Hfit. simpl in Hfit.
  destruct (Z.leb_spec (lru_max (lru (settings (this s)))) 0); [lia|].
  simpl in Hfit. by apply Z.ltb_ge in Hfit.
Qed.

Lemma reachable_evicting : reachable Run.evicting.
Proof.
  do 2 apply reach_set. apply reach_start.
  by apply (reach_boot (Sample.options false 12)).
Qed.

Lemma resident_weight_bounded_witness :
  reachable Run.evicting /\
  0 < lru_max (lru (settings (this Run.evicting))) /\
  exists c, cache (this Run.evicting) = Some c /\ LRU.resident_weight c <= 12.
Proof.
  split; [exact reachable_evicting|]. split; [reflexivity|].
  eexists. split; [reflexivity|].
  exact (resident_weight_bounded Run.evicting _ reachable_evicting
           defaults_length_nonneg eq_refl eq_refl).
Defined.

(** ** Buffers in mixed-content mode *)

Lemma serialize_copies_buffer `{JSONEngine} (h : list (list Byte.byte)) (a : nat)
    (bs : list Byte.byte) :
  h !! a = Some bs ->
  serialize h (VBuffer a) true = Normal (IBuffer (List.length h), h ++ [bs]).
Proof.
  intros Ha. unfold serialize, Buffer.new, Buffer.length, Buffer.copy. rewrite Ha.
  pose proof (lookup_lt_Some _ _ _ Ha) as Hlt.
  rewrite lookup_app_l by done. rewrite Ha.
  rewrite list_lookup_middle by done.
  rewrite length_replicate, take_ge by done.
  rewrite skipn_all2 by (rewrite length_replicate; lia).
  rewrite app_nil_r.
  rewrite insert_app_r_alt by done. rewrite Nat.sub_diag. reflexivity.
Qed.

(** X2: in mixed-content mode, on the side of [set], the envelope gets a fresh buffer
    with the bytes of the caller's buffer, and no later write into the
    caller's buffer reaches it. *)
Theorem set_stores_private_copy `{JSONEngine} (s : State) (k : CacheKey) (a : nat)
    (bs : list Byte.byte) (t : Z) (s' : State) :
  allowMixedContent (settings (this s)) = true ->
  heap s !! a = Some bs ->
  set s k (VBuffer a) t = (Done tt, s') ->
  heap s' = heap s ++ [bs] /\
  (forall e, resident s' k = Some e -> item e = IBuffer (List.length (heap s))) /\
  Buffer.contents (heap s') (List.length (heap s)) = bs /\
  (forall i b,
     Buffer.contents (Buffer.write (heap s') a i b) (List.length (heap s)) = bs).
Proof.
  intros Hmixed Ha Hset.
  apply set_done in Hset as (c & it & Ec & _ & Hser & _ & _ & _ & _ & Hc).
  rewrite Hmixed, (serialize_copies_buffer _ _ _ Ha) in Hser.
  injection Hser as <- Hh.
  pose proof (lookup_lt_Some _ _ _ Ha) as Hlt.
  assert (Hcell : (heap s ++ [bs]) !! List.length (heap s) = Some bs)
    by (by apply list_lookup_middle).
  split; [done|]. split; [|split].
  - intros e. unfold resident. rewrite Hc. intros He.
    apply peek_set_inv in He. by subst e.
  - unfold Buffer.contents. by rewrite <- Hh, Hcell.
  - intros i b. unfold Buffer.contents, Buffer.write. rewrite <- Hh.
    rewrite lookup_app_l, Ha by done.
    rewrite list_lookup_insert_ne by lia. by rewrite Hcell.
Qed.

Lemma set_stores_private_copy_witness :
  allowMixedContent (settings (this Run.mixed)) = true /\
  heap Run.mixed !! 0%nat = Some [Byte.x01; Byte.x02] /\
  set Run.mixed Sample.key1 (VBuffer 0) 1000 = (Done tt, Run.stored_buffer) /\
  Buffer.contents (heap Run.stored_buffer) 1 = [Byte.x01; Byte.x02] /\
  Buffer.contents (Buffer.write (heap Run.stored_buffer) 0 0 Byte.x09) 1
    = [Byte.x01; Byte.x02].
Proof.
  destruct (set_stores_private_copy Run.mixed Sample.key1 0 [Byte.x01; Byte.x02] 1000
              Run.stored_buffer eq_refl eq_refl eq_refl) as (_ & _ & Hcopy & Hindep).
  split; [reflexivity|]. split; [reflexivity|]. split; [reflexivity|].
  split; [exact Hcopy | exact (Hindep 0%nat Byte.x09)].
Defined.

(** Mixed-content mode, the side of [get]: whatever the engine, a
    resident buffer payload is handed out as it is, the same reference. *)
Lemma get_returns_stored_reference `{JSONEngine} (s : State) (k : CacheKey)
    (e : Envelope) (a : nat) :
  resident s k = Some e -> item e = IBuffer a ->
  fst (get s k) =
    Done (Some {| found_item := VBuffer a; found_stored := stored e; found_ttl := ttl e |}).
Proof.
  unfold resident, get. destruct (cache (this s)) as [c|]; [|discriminate].
  intros Hpeek Hitem.
  assert (Hget : fst (LRU.get c (generateKey k)) = Some e).
  { revert Hpeek. unfold LRU.peek, LRU.get. by destruct (List.find _ _). }
  destruct (LRU.get c (generateKey k)) as [o c1]. simpl in Hget. subst o.
  by rewrite Hitem.
Qed.

(** ** Expiry, dropping an absent key, and stopping *)

Section Lifecycle.
Context `{JSONEngine}.

Lemma get_miss (s : State) (k : CacheKey) :
  isReady s = true -> resident s k = None -> fst (get s k) = Done None.
Proof.
  unfold isReady, resident, get. destruct (cache (this s)) as [c|]; [|discriminate].
  intros _. unfold LRU.peek, LRU.get. by destruct (List.find _ _).
Qed.

(** X3: once the delay of its timer has elapsed, an entry stored by a
    completed [set] is gone, and [get] reports a miss without error. *)
Theorem set_expires (s : State) (k : CacheKey) (v : JSValue) (t : Z) (s' : State) (u : Z) :
  set s k v t = (Done tt, s') ->
  now s + timer_delay t <= u ->
  resident (advance s' u) k = None /\ fst (get (advance s' u) k) = Done None.
Proof.
  intros Hset Hu.
  pose proof Hset as Hdone.
  apply set_done in Hdone as (c & it & Ec & _ & _ & Htm & _ & _ & _ & Hc).
  assert (Hgone : resident (advance s' u) k = None).
  { rewrite resident_advance.
    replace (existsb _ (timers s')) with true; [done|].
    symmetry. apply existsb_exists. exists (new_timer s k t). split.
    - rewrite Htm. apply In_enqueue. by left.
    - apply andb_true_iff. split.
      + unfold is_due. simpl. by apply Z.leb_le.
      + unfold hits. simpl. apply String.eqb_refl. }
  split; [exact Hgone|]. apply get_miss; [|exact Hgone].
  unfold advance.
  destruct (foldl_fire_frame (List.filter (is_due u) (timers s'))
    {| this := this s'; now := Z.max (now s') u;
       timers := List.filter (fun tm => negb (is_due u tm)) (timers s');
       next_timer := next_timer s'; heap := heap s' |}) as (_ & _ & _ & _ & _ & ->).
  unfold isReady. simpl. by rewrite Hc.
Qed.

End Lifecycle.

Lemma set_expires_witness :
  set Sample.started Sample.key1 (VString "hello") 1000 = (Done tt, Run.hello) /\
  fst (get Run.hello Sample.key1)
    = Done (Some {| found_item := VString "hello"; found_stored := 0; found_ttl := 1000 |}) /\
  fst (get (advance Run.hello 1500) Sample.key1) = Done None.
Proof.
  assert (Hset : set Sample.started Sample.key1 (VString "hello") 1000
                 = (Done tt, Run.hello)) by reflexivity.
  split; [exact Hset|]. split; [reflexivity|].
  apply (set_expires Sample.started Sample.key1 (VString "hello") 1000 Run.hello 1500 Hset).
  vm_compute. discriminate.
Defined.

Lemma without_absent (k : string) (l : list LRU.Entry) :
  List.find (LRU.has_key k) l = None -> LRU.without k l = l.
Proof.
  induction l as [|e l IH]; simpl; [done|].
  destruct (LRU.has_key k e); [discriminate|]. simpl. intros Hf. by rewrite IH.
Qed.

(** X4: dropping a key that is absent completes without error and changes
    nothing at all. *)
Theorem drop_absent (s : State) (k : CacheKey) :
  isReady s = true -> resident s k = None -> drop s k = (Done tt, s).
Proof.
  unfold isReady, resident, drop, LRU.peek.
  destruct s as [[st [c|]] n q i h]; simpl; [|discriminate].
  intros _ Hfind. unfold with_cache, with_this, LRU.del, LRU.with_entries. simpl.
  destruct (List.find (LRU.has_key (generateKey k)) (LRU.entries c)) eqn:E; [discriminate|].
  rewrite without_absent by done. by destruct c.
Qed.

Lemma drop_absent_witness :
  isReady Sample.started = true /\
  resident Sample.started Sample.key1 = None /\
  drop Sample.started Sample.key1 = (Done tt, Sample.started).
Proof.
  split; [reflexivity|]. split; [reflexivity|].
  exact (drop_absent Sample.started Sample.key1 eq_refl eq_refl).
Defined.

(** X5: stopping cancels the timer of every envelope that is resident, and
    leaves the connection not started. *)
Theorem stop_cancels_resident (s s' : State) (k : CacheKey) (e : Envelope) (i : nat) :
  stop s = Normal s' ->
  resident s k = Some e ->
  timeoutId e = Some i ->
  ~ armed s' i /\ isReady s' = false.
Proof.
  intros Hstop Hres Hid. split; [|by eapply not_ready_after_stop].
  apply resident_entry in Hres as (x & Hin & <-).
  revert Hstop Hin. unfold stop, entries_of.
  destruct (cache (this s)) as [c|]; [|discriminate].
  intros [= <-] Hin (tm & Htm & <-). simpl in Htm.
  destruct (foldl_clear_frame (LRU.values c) s) as (_ & _ & _ & _ & Hleft).
  apply Hleft in Htm as [_ Hnot]. apply Hnot.
  rewrite <- Hid. apply in_map. unfold LRU.values.
  apply in_map. by apply in_rev in Hin.
Qed.

Lemma stop_cancels_resident_witness :
  resident Run.first_set Sample.key1 = Some (Run.envelope_of "a" 1000 0) /\
  armed Run.first_set 0 /\
  exists s', stop Run.first_set = Normal s' /\ ~ armed s' 0 /\ isReady s' = false.
Proof.
  split; [reflexivity|]. split.
  - exists {| timer_id := 0; timer_due := 1000; timer_key := Sample.key1 |}.
    split; [by left | reflexivity].
  - eexists. split; [reflexivity|].
    exact (stop_cancels_resident Run.first_set _ Sample.key1
             (Run.envelope_of "a" 1000 0) 0 eq_refl eq_refl eq_refl).
Defined.

(** X6: starting a connection that is started is a no-op: the store and
    everything in it stay as they are. *)
Theorem start_idempotent (s : State) : isReady s = true -> start s = s.
Proof. unfold isReady, start. by destruct (cache (this s)). Qed.

Lemma start_idempotent_witness :
  isReady Run.hello = true /\ start Run.hello = Run.hello.
Proof. split; [reflexivity|]. exact (start_idempotent Run.hello eq_refl). Defined.

(** X7: on a started connection in default mode, whatever the JSON engine
    of the host: when [JSON.stringify] gives the value a text, [JSON.parse]
    reads that text as [w], the ttl is in range and the envelope that holds
    the text fits the capacity, [set] completes, the envelope is resident at
    once, and [get] hands back [w] with the time of storage and the ttl.
    So [get] hands back the value itself whenever the host reads it back
    from its own text. *)
Theorem set_then_get `{JSONEngine} (s : State) (k : CacheKey) (v w : JSValue)
    (text : string) (t : Z) (c : LRU.t) :
  cache (this s) = Some c ->
  allowMixedContent (settings (this s)) = false ->
  JSON_stringify (heap s) v = Normal (Some text) ->
  JSON_parse text = Normal w ->
  t <= 2147483647 ->
  LRU.exceeds (LRU.capacity c)
    (LRU.weigher c (heap s) (envelope_set s (IString text) t)) = false ->
  fst (set s k v t) = Done tt /\
  resident (snd (set s k v t)) k = Some (envelope_set s (IString text) t) /\
  fst (get (snd (set s k v t)) k) =
    Done (Some {| found_item := w; found_stored := now s; found_ttl := t |}).
Proof.
  intros Ec Hmode Htext Hparse Ht Hfit.
  assert (Hser : serialize (heap s) v false = Normal (IString text, heap s))
    by (unfold serialize; by rewrite Htext).
  assert (Hde : deserialize (IString text) = DValue w)
    by (unfold deserialize; by rewrite Hparse).
  destruct (set s k v t) as [o s'] eqn:Hset.
  assert (o = Done tt) as ->.
  { change o with (fst (o, s')). rewrite <- Hset.
    eapply set_completes; [done|done|]. by rewrite Hmode, Hser. }
  split; [done|]. simpl.
  apply set_done in Hset as (c' & it & Ec' & _ & Hser' & _ & _ & _ & _ & Hc).
  rewrite Ec in Ec'. injection Ec' as <-.
  rewrite Hmode, Hser in Hser'. injection Hser' as <- Hh.
  rewrite <- Hh in Hc. fold (envelope_set s (IString text) t) in Hc.
  pose proof (peek_set_fits (heap s) c (generateKey k) _ Hfit) as Hpeek.
  split; [unfold resident; by rewrite Hc|].
  unfold get. rewrite Hc.
  assert (Hget : fst (LRU.get (LRU.set (heap s) c (generateKey k)
                        (envelope_set s (IString text) t)) (generateKey k))
                 = Some (envelope_set s (IString text) t)).
  { revert Hpeek. unfold LRU.peek, LRU.get. destruct (List.find _ _); [|done].
    simpl. congruence. }
  destruct (LRU.get _ _) as [o c1]. simpl in Hget. subst o.
  cbv beta iota. unfold envelope_set. cbn [item stored ttl]. by rewrite Hde.
Qed.

Lemma set_then_get_witness :
  fst (set Sample.started Sample.key1 (VString "hello") 1000) = Done tt /\
  resident Run.hello Sample.key1 = Some (Run.envelope_of "hello" 1000 0) /\
  fst (get Run.hello Sample.key1) =
    Done (Some {| found_item := VString "hello"; found_stored := 0; found_ttl := 1000 |}).
Proof.
  refine (set_then_get Sample.started Sample.key1 (VString "hello") (VString "hello")
            (JSON.quote "hello") 1000 _ eq_refl eq_refl eq_refl eq_refl _ _);
    [discriminate | reflexivity].
Defined.

(** ** What a failed set leaves behind *)

(** X8: a [set] that reports an error has changed nothing: no envelope was
    stored or replaced, no timer cancelled or armed, no buffer allocated.
    The error tells which check failed, and the checks come in this order:
    started, ttl, envelope. *)
Theorem set_failure_changes_nothing `{JSONEngine} (s : State) (k : CacheKey)
    (v : JSValue) (t : Z) (err : Error) :
  fst (set s k v t) = Failed err ->
  snd (set s k v t) = s /\
  (err = ConnectionNotStarted <-> isReady s = false) /\
  (err = InvalidTtl <-> isReady s = true /\ 2147483647 < t) /\
  (err = EnvelopeThrew <->
     isReady s = true /\ t <= 2147483647 /\
     serialize (heap s) v (allowMixedContent (settings (this s))) = Throw) /\
  err <> BadValueContent.
Proof.
  unfold set, Envelope_new, isReady.
  destruct (cache (this s)) as [c|].
  - destruct (Z.ltb_spec 2147483647 t).
    + intros [= <-]. simpl. repeat split; try done; try lia; intros; try tauto.
      all: destruct_and?; try done; lia.
    + destruct (serialize _ _ _) as [[it h]|].
      * destruct (LRU.peek c (generateKey k)); discriminate.
      * intros [= <-]. simpl. repeat split; try done; try lia.
        all: intros; destruct_and?; try done; lia.
  - intros [= <-]. simpl. repeat split; try done; intros; destruct_and?; done.
Qed.

Lemma set_failure_changes_nothing_witness :
  fst More.failed_set = Failed EnvelopeThrew /\
  snd More.failed_set = Run.first_set /\
  resident (snd More.failed_set) Sample.key1 = Some (Run.envelope_of "a" 1000 0).
Proof.
  assert (Hfail : fst (set Run.first_set Sample.key1 VCyclic 1000) = Failed EnvelopeThrew)
    by reflexivity.
  destruct (set_failure_changes_nothing Run.first_set Sample.key1 VCyclic 1000
              EnvelopeThrew Hfail) as (Hsame & _).
  split; [exact Hfail|]. split; [exact Hsame|].
  unfold More.failed_set. rewrite Hsame. reflexivity.
Defined.

(** ** Reading, dropping, stopping *)

(** X9: on a started connection [get] answers from the envelope resident
    under the key: a miss when there is none, [Bad value content] when its
    payload does not deserialize, and otherwise the value with the stored
    time and ttl of the envelope.  Whatever the answer, every key is resident
    afterwards exactly as before, and timers and buffers are untouched. *)
Theorem get_answers_from_resident `{JSONEngine} (s : State) (k : CacheKey) :
  isReady s = true ->
  fst (get s k) =
    match resident s k with
    | None => Done None
    | Some e =>
        match deserialize (item e) with
        | DError => Failed BadValueContent
        | DValue v =>
            Done (Some {| found_item := v; found_stored := stored e;
                          found_ttl := ttl e |})
        end
    end /\
  (forall k', resident (snd (get s k)) k' = resident s k') /\
  timers (snd (get s k)) = timers s /\
  heap (snd (get s k)) = heap s /\
  isReady (snd (get s k)) = true.
Proof.
  unfold resident, get, isReady. destruct (cache (this s)) as [c|] eqn:Ec; [|discriminate].
  intros _.
  assert (Hsame : forall k', LRU.peek (snd (LRU.get c (generateKey k))) (generateKey k')
                             = LRU.peek c (generateKey k')) by (intros; apply peek_get).
  assert (Hget : fst (LRU.get c (generateKey k)) = LRU.peek c (generateKey k)).
  { unfold LRU.peek, LRU.get. by destruct (List.find _ _). }
  destruct (LRU.get c (generateKey k)) as [o c1]. simpl in Hget, Hsame. subst o.
  destruct (LRU.peek c (generateKey k)) as [e|]; [|by repeat split].
  destruct (deserialize (item e)); by repeat split.
Qed.

Lemma get_answers_from_resident_witness :
  isReady More.two_keys = true /\
  fst (get More.two_keys Sample.key1)
    = Done (Some {| found_item := VString "a"; found_stored := 0; found_ttl := 1000 |}) /\
  resident (snd (get More.two_keys Sample.key1)) Sample.key2
    = Some (Run.envelope_of "b" 2000 1).
Proof.
  destruct (get_answers_from_resident More.two_keys Sample.key1 eq_refl)
    as (Hans & Hkeep & _).
  split; [reflexivity|]. split.
  - rewrite Hans. reflexivity.
  - rewrite Hkeep. reflexivity.
Defined.

(** X10: on a started connection [drop] completes, the key is absent
    afterwards and [get] reports a miss for it, and every key with another
    token is resident exactly as before. *)
Theorem drop_removes_the_key `{JSONEngine} (s : State) (k : CacheKey) :
  isReady s = true ->
  fst (drop s k) = Done tt /\
  resident (snd (drop s k)) k = None /\
  fst (get (snd (drop s k)) k) = Done None /\
  (forall k', generateKey k' <> generateKey k ->
              resident (snd (drop s k)) k' = resident s k').
Proof.
  intros Hready.
  assert (Hgone : resident (snd (drop s k)) k = None).
  { rewrite resident_drop. by rewrite String.eqb_refl. }
  split; [|split; [exact Hgone|split]].
  - revert Hready. unfold isReady, drop. by destruct (cache (this s)).
  - apply get_miss; [|exact Hgone].
    destruct (drop_frame s k) as (_ & _ & _ & _ & _ & ->). exact Hready.
  - intros k' Hne. rewrite resident_drop.
    destruct (String.eqb_spec (generateKey k) (generateKey k')); [congruence|done].
Qed.

Lemma drop_removes_the_key_witness :
  isReady More.two_keys = true /\
  resident More.two_keys Sample.key1 = Some (Run.envelope_of "a" 1000 0) /\
  resident (snd (drop More.two_keys Sample.key1)) Sample.key1 = None /\
  fst (get (snd (drop More.two_keys Sample.key1)) Sample.key1) = Done None /\
  resident (snd (drop More.two_keys Sample.key1)) Sample.key2
    = Some (Run.envelope_of "b" 2000 1).
Proof.
  destruct (drop_removes_the_key More.two_keys Sample.key1 eq_refl)
    as (_ & Hgone & Hmiss & Hothers).
  split; [reflexivity|]. split; [reflexivity|]. split; [exact Hgone|].
  split; [exact Hmiss|]. rewrite Hothers; [reflexivity | discriminate].
Defined.

(** X11: stopping discards the store: after [stop] and a new [start] the
    connection is ready again and no key is resident. *)
Theorem stop_then_start_is_empty (s s' : State) (k : CacheKey) :
  stop s = Normal s' ->
  isReady (start s') = true /\
  resident (start s') k = None /\
  entries_of (start s') = [].
Proof.
  intros Hstop. pose proof (not_ready_cache s s' Hstop) as Hc.
  unfold isReady, resident, entries_of, start. rewrite Hc. simpl. by repeat split.
Qed.

Lemma stop_then_start_is_empty_witness :
  resident Run.first_set Sample.key1 = Some (Run.envelope_of "a" 1000 0) /\
  stop Run.first_set = Normal More.stopped /\
  isReady More.restarted = true /\
  resident More.restarted Sample.key1 = None.
Proof.
  assert (Hstop : stop Run.first_set = Normal More.stopped) by reflexivity.
  destruct (stop_then_start_is_empty Run.first_set More.stopped Sample.key1 Hstop)
    as (Hready & Hnone & _).
  split; [reflexivity|]. split; [exact Hstop|]. split; [exact Hready | exact Hnone].
Defined.

Lemma foldl_fire_not_started (l : list Timer) (s : State) :
  isReady s = false -> foldl fire s l = s.
Proof.
  intros Hs. induction l as [|tm l IH]; [done|]. simpl.
  replace (fire s tm) with s; [exact IH|].
  unfold fire, drop. revert Hs. unfold isReady. by destruct (cache (this s)).
Qed.

(** X12: a timer that fires while the connection is not started does
    nothing: the error of its [drop] is swallowed, the connection stays as it
    is, not started, and only the fired timers leave the queue. *)
Theorem timers_after_stop_do_nothing (s : State) (u : Z) :
  isReady s = false ->
  this (advance s u) = this s /\
  heap (advance s u) = heap s /\
  isReady (advance s u) = false /\
  timers (advance s u) = List.filter (fun tm => negb (is_due u tm)) (timers s).
Proof.
  intros Hs. split; [|split; [|split]]; [| | |apply timers_advance].
  all: unfold advance; rewrite foldl_fire_not_started by exact Hs; done.
Qed.

Lemma timers_after_stop_do_nothing_witness :
  isReady More.stopped_with_timer = false /\
  armed More.stopped_with_timer 0 /\
  this (advance More.stopped_with_timer 1000) = this More.stopped_with_timer /\
  timers (advance More.stopped_with_timer 1000) = [].
Proof.
  destruct (timers_after_stop_do_nothing More.stopped_with_timer 1000 eq_refl)
    as (Hthis & _ & _ & Htimers).
  split; [reflexivity|]. split.
  - exists {| timer_id := 0; timer_due := 1000; timer_key := Sample.key1 |}.
    split; [by left | reflexivity].
  - split; [exact Hthis|]. rewrite Htimers. reflexivity.
Defined.

(** ** No entry outlives its ttl *)

Lemma entries_of_drop_key (s : State) (k : CacheKey) (x : LRU.Entry) :
  In x (entries_of (snd (drop s k))) -> LRU.key x <> generateKey k.
Proof.
  unfold drop, entries_of. destruct (cache (this s)) as [c|] eqn:E; simpl.
  - unfold LRU.without, LRU.has_key. rewrite List.filter_In.
    intros [_ Hk]. apply negb_true_iff in Hk. by apply String.eqb_neq.
  - by rewrite E.
Qed.

Lemma entries_of_foldl_fire_key (l : list Timer) (s : State) (x : LRU.Entry) :
  In x (entries_of (foldl fire s l)) ->
  forall tm, In tm l -> generateKey (timer_key tm) <> LRU.key x.
Proof.
  revert s. induction l as [|y l IH]; intros s Hin tm; simpl; [done|].
  intros [<-|Htm].
  - simpl in Hin. apply entries_of_foldl_fire in Hin.
    apply entries_of_drop_key in Hin. congruence.
  - by apply (IH (fire s y)).
Qed.

Lemma set_entries_key (h : list (list Byte.byte)) (c : LRU.t) (k : string)
    (v : Envelope) (e : LRU.Entry) :
  In e (LRU.entries (LRU.set h c k v)) ->
  (In e (LRU.entries c) /\ LRU.key e <> k) \/ (LRU.key e = k /\ LRU.value e = v).
Proof.
  assert (Hold : forall l, In e (LRU.without k l) -> In e l /\ LRU.key e <> k).
  { intros l. unfold LRU.without, LRU.has_key. rewrite List.filter_In.
    intros [? Hk]. apply negb_true_iff in Hk. split; [done|]. by apply String.eqb_neq. }
  unfold LRU.set.
  destruct (LRU.exceeds (LRU.capacity c) (LRU.weigher c h v)); simpl.
  - intros Hin. left. by apply Hold.
  - destruct (trim_suffix (LRU.capacity c)
      (LRU.without k (LRU.entries c) ++
         [{| LRU.key := k; LRU.value := v; LRU.weight := LRU.weigher c h v |}]))
      as [pre Hpre].
    intros Hin.
    assert (Hin' : In e (pre ++ LRU.trim (LRU.capacity c)
      (LRU.without k (LRU.entries c) ++
         [{| LRU.key := k; LRU.value := v; LRU.weight := LRU.weigher c h v |}])))
      by (apply in_or_app; by right).
    rewrite <- Hpre in Hin'. apply in_app_or in Hin' as [Hin'|[<-|[]]].
    + left. by apply Hold.
    + by right.
Qed.

Lemma resident_entry_key (s : State) (k : CacheKey) (e : Envelope) :
  resident s k = Some e ->
  exists x, In x (entries_of s) /\ LRU.value x = e /\ LRU.key x = generateKey k.
Proof.
  unfold resident, entries_of, LRU.peek.
  destruct (cache (this s)) as [c|]; [|discriminate].
  destruct (List.find _ _) as [x|] eqn:E; [|discriminate].
  intros [= <-]. exists x. apply List.find_some in E as [Hin Hk].
  repeat split; [done|]. by apply String.eqb_eq in Hk.
Qed.

Lemma timers_live_drop (s : State) (k : CacheKey) :
  timers_live s -> timers_live (snd (drop s k)).
Proof.
  intros [Hu He]. unfold timers_live.
  destruct (drop_frame s k) as (-> & _). split; [exact Hu|].
  intros x Hin. apply He. by apply entries_of_drop in Hin.
Qed.

Lemma timers_live_advance (s : State) (u : Z) :
  timers_live s -> timers_live (advance s u).
Proof.
  intros [Hu He]. unfold timers_live. rewrite timers_advance. split.
  - intros a b Ha Hb. apply List.filter_In in Ha as [Ha _].
    apply List.filter_In in Hb as [Hb _]. by apply Hu.
  - intros x Hin. unfold advance in Hin.
    pose proof (entries_of_foldl_fire_key _ _ x Hin) as Hkey.
    apply entries_of_foldl_fire in Hin.
    destruct (He x Hin) as (tm & Htm & Hid & Htok & Hdue).
    exists tm. repeat split; try done.
    apply List.filter_In. split; [done|].
    destruct (is_due u tm) eqn:Ed; [|done].
    exfalso. apply (Hkey tm); [|done]. apply List.filter_In. by split.
Qed.

Lemma timers_live_stop (s s' : State) :
  timers_live s -> stop s = Normal s' -> timers_live s'.
Proof.
  unfold stop. destruct (cache (this s)) as [c|] eqn:E; [|discriminate].
  intros [Hu _] [= <-]. unfold timers_live, entries_of. simpl.
  destruct (foldl_clear_frame (LRU.values c) s) as (_ & _ & _ & _ & Hin).
  split; [|intros x []].
  intros a b Ha Hb. apply Hin in Ha as [Ha _]. apply Hin in Hb as [Hb _]. by apply Hu.
Qed.

Lemma timers_live_start (s : State) : timers_live s -> timers_live (start s).
Proof.
  unfold start, timers_live, entries_of.
  destruct (cache (this s)) eqn:E; simpl; rewrite ?E; [done|].
  intros [Hu _]. split; [exact Hu | intros x []].
Qed.

Section Timers_live.
Context `{JSONEngine}.

Lemma entries_of_get (s : State) (k : CacheKey) (x : LRU.Entry) :
  In x (entries_of (snd (get s k))) -> In x (entries_of s).
Proof.
  unfold get, entries_of. destruct (cache (this s)) as [c|] eqn:E; [|simpl; by rewrite E].
  assert (Hc : In x (LRU.entries (snd (LRU.get c (generateKey k)))) -> In x (LRU.entries c)).
  { unfold LRU.get.
    destruct (List.find (LRU.has_key (generateKey k)) (LRU.entries c)) as [e|] eqn:Ef;
      simpl; [|done].
    intros Hin. apply in_app_or in Hin as [Hin|[<-|[]]].
    - unfold LRU.without in Hin. apply List.filter_In in Hin. tauto.
    - by apply List.find_some in Ef as [? _]. }
  destruct (LRU.get c (generateKey k)) as [[e|] c1]; simpl in *; [|done].
  by destruct (deserialize (item e)).
Qed.

Lemma get_timers (s : State) (k : CacheKey) : timers (snd (get s k)) = timers s.
Proof.
  unfold get. destruct (cache (this s)) as [c|]; [|done].
  destruct (LRU.get c (generateKey k)) as [[e|] c1]; simpl; [|done].
  by destruct (deserialize (item e)).
Qed.

Lemma timers_live_get (s : State) (k : CacheKey) :
  timers_live s -> timers_live (snd (get s k)).
Proof.
  intros [Hu He]. unfold timers_live. rewrite get_timers. split; [exact Hu|].
  intros x Hin. apply He. by apply entries_of_get in Hin.
Qed.

Lemma set_failed_state (s : State) (k : CacheKey) (v : JSValue) (t : Z) (err : Error) :
  fst (set s k v t) = Failed err -> snd (set s k v t) = s.
Proof.
  unfold set, Envelope_new. destruct (cache (this s)) as [c|]; [|done].
  destruct (2147483647 <? t); [done|].
  destruct (serialize _ _ _) as [[it h]|]; [|done].
  destruct (LRU.peek c (generateKey k)); discriminate.
Qed.

Lemma timers_live_set (s : State) (k : CacheKey) (v : JSValue) (t : Z) :
  well_formed s -> timers_live s -> timers_live (snd (set s k v t)).
Proof.
  intros [Hlt _] [Hu He].
  destruct (set s k v t) as [[err|[]] s'] eqn:E; simpl.
  - assert (s' = s) as ->; [|by split].
    change s' with (snd (Failed err : Outcome unit, s')). rewrite <- E.
    apply (set_failed_state s k v t err). by rewrite E.
  - apply set_done in E as (c & it & Ec & _ & _ & Htm & _ & _ & _ & Hc).
    rewrite List.Forall_forall in Hlt.
    assert (Hsub : forall tm, In tm (after_cancel s k) -> In tm (timers s)).
    { intros tm. unfold after_cancel.
      destruct (resident s k) as [ci|]; [destruct (timeoutId ci)|]; try done.
      rewrite List.filter_In. tauto. }
    unfold timers_live, entries_of. rewrite Htm, Hc. split.
    + intros a b Ha Hb Hid.
      apply In_enqueue in Ha as [->|Ha]; apply In_enqueue in Hb as [->|Hb]; try done.
      * apply Hsub, Hlt in Hb. simpl in Hid. lia.
      * apply Hsub, Hlt in Ha. simpl in Hid. lia.
      * apply Hu; [by apply Hsub | by apply Hsub | done].
    + intros x Hin. apply set_entries_key in Hin as [[Hin Hkey]|[Hkey Hval]].
      * assert (Hx : In x (entries_of s)) by (unfold entries_of; by rewrite Ec).
        destruct (He x Hx) as (tm & Htmin & Hid & Htok & Hdue).
        exists tm. repeat split; try done.
        apply In_enqueue. right. unfold after_cancel.
        destruct (resident s k) as [ci|] eqn:Er; [|done].
        destruct (timeoutId ci) as [old|] eqn:Eo; [|done].
        apply List.filter_In. split; [done|].
        apply negb_true_iff, Nat.eqb_neq. intros Hsame.
        apply resident_entry_key in Er as (y & Hy & Hvy & Hky).
        destruct (He y Hy) as (tmy & Htmy & Hidy & Htoky & _).
        rewrite Hvy, Eo in Hidy. injection Hidy as Hidy.
        assert (tm = tmy) as -> by (apply Hu; [done|done|congruence]).
        congruence.
      * exists (new_timer s k t). rewrite Hval. simpl.
        repeat split; try done. apply In_enqueue. by left.
Qed.

(** In every state a process goes through, each resident envelope has its
    own timer armed. *)
Lemma reachable_timers_live (s : State) : reachable s -> timers_live s.
Proof.
  induction 1 as [o c Hc|s Hs IH|s s' Hs IH Hstop|s k Hs IH|s k v t Hs IH|s k Hs IH
                 |s u Hs IH|s s' Hs IH Hstep].
  - unfold timers_live, entries_of. simpl. rewrite (Connection_new_cache o c Hc).
    split; [intros a b []|intros x []].
  - by apply timers_live_start.
  - by eapply timers_live_stop.
  - by apply timers_live_get.
  - apply timers_live_set; [by apply reachable_well_formed | done].
  - by apply timers_live_drop.
  - by apply timers_live_advance.
  - by destruct Hstep.
Qed.

End Timers_live.

(** X13: whatever a process has done before, an envelope that is resident
    has its timer armed, due when the delay of its ttl has elapsed since it
    was stored; so once that time is reached the key is absent: no entry
    outlives its ttl. *)
Theorem entry_never_outlives_ttl `{JSONEngine} (s : State) (k : CacheKey)
    (e : Envelope) (u : Z) :
  reachable s ->
  resident s k = Some e ->
  (exists i, timeoutId e = Some i /\ armed s i) /\
  (stored e + timer_delay (ttl e) <= u -> resident (advance s u) k = None).
Proof.
  intros Hreach Hres.
  destruct (reachable_timers_live s Hreach) as [_ He].
  apply resident_entry_key in Hres as (x & Hx & <- & Hkey).
  destruct (He x Hx) as (tm & Htm & Hid & Htok & Hdue).
  split.
  - exists (timer_id tm). split; [done|]. by exists tm.
  - intros Hu. rewrite resident_advance.
    replace (existsb _ (timers s)) with true; [done|].
    symmetry. apply existsb_exists. exists tm. split; [done|].
    apply andb_true_iff. split.
    + unfold is_due. apply Z.leb_le. lia.
    + unfold hits. apply String.eqb_eq. congruence.
Qed.

Lemma reachable_two_keys : reachable More.two_keys.
Proof. do 2 apply reach_set. apply reachable_started. Qed.

Lemma entry_never_outlives_ttl_witness :
  reachable More.two_keys /\
  resident More.two_keys Sample.key2 = Some (Run.envelope_of "b" 2000 1) /\
  armed More.two_keys 1 /\
  resident (advance More.two_keys 2000) Sample.key2 = None.
Proof.
  destruct (entry_never_outlives_ttl More.two_keys Sample.key2
              (Run.envelope_of "b" 2000 1) 2000 reachable_two_keys eq_refl)
    as ((i & Hi & Harmed) & Hgone).
  injection Hi as <-.
  split; [exact reachable_two_keys|]. split; [reflexivity|].
  split; [exact Harmed|]. apply Hgone. vm_compute. discriminate.
Defined.

(** ** What a completed set stores *)

Lemma trim_fitting (cap : option Z) (l : list LRU.Entry) :
  LRU.exceeds cap (LRU.total l) = false -> LRU.trim cap l = l.
Proof. destruct l as [|e l]; [done|]. cbn [LRU.trim]. by intros ->. Qed.

Section Stored.
Context `{JSONEngine}.

(** X14: a [set] that completes always arms its timer, and afterwards the
    key holds the new envelope, or nothing at all when the envelope weighs
    more than the whole capacity: the store refuses it, and with it goes
    whatever the key held before, although [set] has reported no error. *)
Theorem set_stores_or_refuses (s : State) (k : CacheKey) (v : JSValue) (t : Z)
    (s' : State) (c : LRU.t) :
  set s k v t = (Done tt, s') ->
  cache (this s) = Some c ->
  exists it,
    serialize (heap s) v (allowMixedContent (settings (this s))) = Normal (it, heap s') /\
    armed s' (next_timer s) /\
    resident s' k =
      if LRU.exceeds (LRU.capacity c) (LRU.weigher c (heap s') (envelope_set s it t))
      then None else Some (envelope_set s it t).
Proof.
  intros Hset Ec.
  apply set_done in Hset as (c' & it & Ec' & _ & Hser & Htm & _ & _ & _ & Hc).
  rewrite Ec in Ec'. injection Ec' as <-.
  exists it. split; [done|]. split.
  - exists (new_timer s k t). split; [|done]. rewrite Htm. apply In_enqueue. by left.
  - unfold resident. rewrite Hc. fold (envelope_set s it t).
    destruct (LRU.exceeds _ _) eqn:E.
    + by apply peek_set_oversized.
    + by apply peek_set_fits.
Qed.

(** X15: in mixed-content mode, a buffer set with a ttl in range and whose
    envelope fits the capacity is resident at once, and [get] hands back a
    buffer, the fresh one, holding the bytes of the caller's buffer. *)
Theorem set_then_get_buffer (s : State) (k : CacheKey) (a : nat)
    (bs : list Byte.byte) (t : Z) (c : LRU.t) :
  cache (this s) = Some c ->
  allowMixedContent (settings (this s)) = true ->
  heap s !! a = Some bs ->
  t <= 2147483647 ->
  LRU.exceeds (LRU.capacity c)
    (LRU.weigher c (heap s ++ [bs])
       (envelope_set s (IBuffer (List.length (heap s))) t)) = false ->
  fst (set s k (VBuffer a) t) = Done tt /\
  fst (get (snd (set s k (VBuffer a) t)) k) =
    Done (Some {| found_item := VBuffer (List.length (heap s));
                  found_stored := now s; found_ttl := t |}) /\
  Buffer.contents (heap (snd (get (snd (set s k (VBuffer a) t)) k)))
    (List.length (heap s)) = bs.
Proof.
  intros Ec Hmode Ha Ht Hfit.
  pose proof (serialize_copies_buffer (heap s) a bs Ha) as Hser.
  destruct (set s k (VBuffer a) t) as [o s'] eqn:Hset.
  assert (o = Done tt) as ->.
  { change o with (fst (o, s')). rewrite <- Hset.
    eapply set_completes; [done|done|]. by rewrite Hmode, Hser. }
  split; [done|]. simpl.
  apply set_done in Hset as (c' & it & Ec' & _ & Hser' & _ & _ & _ & _ & Hc).
  rewrite Ec in Ec'. injection Ec' as <-.
  rewrite Hmode, Hser in Hser'. injection Hser' as <- Hh.
  rewrite <- Hh in Hc.
  pose proof (peek_set_fits (heap s ++ [bs]) c (generateKey k) _ Hfit) as Hpeek.
  assert (Hres : resident s' k = Some (envelope_set s (IBuffer (List.length (heap s))) t))
    by (unfold resident; by rewrite Hc).
  assert (Hready : isReady s' = true) by (unfold isReady; by rewrite Hc).
  split.
  - unfold get. rewrite Hc.
    assert (Hget : fst (LRU.get (LRU.set (heap s ++ [bs]) c (generateKey k)
                          (envelope_set s (IBuffer (List.length (heap s))) t))
                          (generateKey k))
                   = Some (envelope_set s (IBuffer (List.length (heap s))) t)).
    { revert Hpeek. unfold LRU.peek, LRU.get. destruct (List.find _ _); [|done].
      simpl. congruence. }
    unfold envelope_set in Hget.
    destruct (LRU.get _ _) as [o c1]. simpl in Hget. subst o. reflexivity.
  - assert (Hheap : heap (snd (get s' k)) = heap s').
    { unfold get. rewrite Hc.
      destruct (LRU.get _ _) as [[e|] c1]; simpl; [|done].
      by destruct (deserialize (item e)). }
    rewrite Hheap, <- Hh. unfold Buffer.contents.
    by rewrite list_lookup_middle.
Qed.

(** X16: when the store has room for the new envelope besides everything
    that is resident, a completed [set] evicts nothing: every key with
    another token is resident afterwards exactly as before. *)
Theorem set_with_room_keeps_others (s : State) (k : CacheKey) (v : JSValue) (t : Z)
    (s' : State) (c : LRU.t) (e' : Envelope) :
  reachable s ->
  (forall h e, 0 <= lru_length (lru (settings (this s))) h e) ->
  set s k v t = (Done tt, s') ->
  cache (this s) = Some c ->
  resident s' k = Some e' ->
  LRU.exceeds (LRU.capacity c)
    (LRU.resident_weight c + LRU.weigher c (heap s') e') = false ->
  forall k', generateKey k' <> generateKey k -> resident s' k' = resident s k'.
Proof.
  intros Hreach Hweigh Hset Ec Hres Hroom k' Hne.
  pose proof (reachable_within_capacity s Hreach Hweigh) as Hin.
  unfold within_capacity in Hin. rewrite Ec in Hin.
  destruct Hin as (_ & _ & Hpos & _ & _).
  apply set_done in Hset as (c' & it & Ec' & _ & _ & _ & _ & _ & _ & Hc).
  rewrite Ec in Ec'. injection Ec' as <-.
  unfold resident in *. rewrite Hc in *. rewrite Ec.
  pose proof (peek_set_inv _ _ _ _ _ Hres) as ->.
  destruct (without_weights (generateKey k) _ Hpos) as (_ & Hle & _).
  unfold LRU.set, LRU.peek.
  destruct (LRU.exceeds (LRU.capacity c) (LRU.weigher c (heap s') _)) eqn:Ebig.
  - simpl. by rewrite find_without_ne.
  - simpl. rewrite trim_fitting.
    + rewrite find_app, find_without_ne by done.
      destruct (List.find (LRU.has_key (generateKey k')) (LRU.entries c)); [done|].
      simpl. unfold LRU.has_key. simpl.
      by destruct (String.eqb_spec (generateKey k) (generateKey k')); [congruence|].
    + rewrite total_app. eapply exceeds_le; [|exact Hroom].
      unfold LRU.resident_weight, LRU.total at 2. simpl. lia.
Qed.

End Stored.

Lemma set_stores_or_refuses_witness :
  resident Run.filled Sample.key1 = Some (Run.envelope_of "aaaaaa" 1000 0) /\
  set Run.filled Sample.key1 (VString "aaaaaaaaaaaaaaaaaaaa") 1000
    = (Done tt, More.oversized) /\
  armed More.oversized 1 /\
  resident More.oversized Sample.key1 = None.
Proof.
  assert (Hset : set Run.filled Sample.key1 (VString "aaaaaaaaaaaaaaaaaaaa") 1000
                 = (Done tt, More.oversized)) by reflexivity.
  destruct (set_stores_or_refuses Run.filled Sample.key1 (VString "aaaaaaaaaaaaaaaaaaaa")
              1000 More.oversized _ Hset eq_refl) as (it & Hser & Harmed & Hres).
  split; [reflexivity|]. split; [exact Hset|]. split; [exact Harmed|].
  rewrite Hres. vm_compute in Hser. injection Hser as <-. reflexivity.
Defined.

Lemma set_then_get_buffer_witness :
  fst (set Run.mixed Sample.key1 (VBuffer 0) 1000) = Done tt /\
  fst (get Run.stored_buffer Sample.key1)
    = Done (Some {| found_item := VBuffer 1; found_stored := 0; found_ttl := 1000 |}) /\
  Buffer.contents (heap (snd (get Run.stored_buffer Sample.key1))) 1
    = [Byte.x01; Byte.x02].
Proof.
  refine (set_then_get_buffer Run.mixed Sample.key1 0 [Byte.x01; Byte.x02] 1000 _
            eq_refl eq_refl eq_refl _ _); [discriminate | reflexivity].
Defined.

Lemma reachable_first_set : reachable Run.first_set.
Proof. apply reach_set, reachable_started. Qed.

Lemma set_with_room_keeps_others_witness :
  reachable Run.first_set /\
  set Run.first_set Sample.key2 (VString "b") 2000 = (Done tt, More.two_keys) /\
  resident More.two_keys Sample.key2 = Some (Run.envelope_of "b" 2000 1) /\
  resident More.two_keys Sample.key1 = Some (Run.envelope_of "a" 1000 0).
Proof.
  assert (Hset : set Run.first_set Sample.key2 (VString "b") 2000
                 = (Done tt, More.two_keys)) by reflexivity.
  assert (Hnew : resident More.two_keys Sample.key2 = Some (Run.envelope_of "b" 2000 1))
    by reflexivity.
  split; [exact reachable_first_set|]. split; [exact Hset|]. split; [exact Hnew|].
  rewrite (set_with_room_keeps_others Run.first_set Sample.key2 (VString "b") 2000
             More.two_keys _ _ reachable_first_set defaults_length_nonneg Hset
             eq_refl Hnew eq_refl Sample.key1); [reflexivity | discriminate].
Defined.

(** ** Segment names *)

Lemma includes_split (c : ascii) (s : string) :
  includes c s = true <-> exists p q, s = (p ++ String c q)%string.
Proof.
  induction s as [|x s IH]; simpl.
  - split; [discriminate|]. intros ([|y p] & q & Hs); discriminate.
  - rewrite orb_true_iff, IH. split.
    + intros [Hx|(p & q & ->)].
      * apply Ascii.eqb_eq in Hx as ->. by exists EmptyString, s.
      * by exists (String x p), q.
    + intros ([|y p] & q & Hs); injection Hs as -> ->.
      * left. apply Ascii.eqb_refl.
      * right. by exists p, q.
Qed.

(** X17: [validateSegmentName] returns null exactly for the names that are
    not empty and hold no NUL character anywhere; the empty name gets the
    error [Empty string], and a name with a NUL character at any position
    gets [Includes null character]. *)
Theorem validateSegmentName_accepts (name : string) :
  (validateSegmentName name = None <->
     name <> EmptyString /\ forall p q, name <> (p ++ String Ascii.zero q)%string) /\
  (validateSegmentName name = Some "Empty string"%string <-> name = EmptyString) /\
  (validateSegmentName name = Some "Includes null character"%string <->
     exists p q, name = (p ++ String Ascii.zero q)%string).
Proof.
  pose proof (includes_split Ascii.zero name) as Hsplit.
  unfold validateSegmentName. destruct name as [|x s].
  - repeat split; try done.
    + intros [Hne _]. by destruct Hne.
    + intros ([|y p] & q & Hs); discriminate.
  - destruct (includes Ascii.zero (String x s)) eqn:E.
    + repeat split; try done.
      * intros [_ Hno]. apply proj1 in Hsplit. destruct (Hsplit eq_refl) as (p & q & Hs).
        by destruct (Hno p q).
      * intros _. by apply Hsplit.
    + repeat split; try done.
      * intros p q Hs. assert (false = true); [|done].
        apply Hsplit. by exists p, q.
      * intros Hex. apply Hsplit in Hex. discriminate.
Qed.
